(** * ringbufdev: a dynamic circular byte queue behind an ioctl interface

    Shallow embedding of [kernel/ringbuf.c] (with [kernel/common.h]).

    - [size_t] and [int] values are integers of [Z] with the wrap-around of
      the C type written out ([size_t] is 64 bits wide, [int] 32 bits).
    - the global [static struct ringbuf rb] is passed explicitly: every
      function takes the current value of [rb] and returns the new one.
    - what C leaves undefined (a store through a null [rb.buf], an index
      outside an allocation, [% 0]) is a result of its own, [Undefined],
      so that the absence of such behaviour is a theorem and not an
      assumption of the model.
    - the kernel services the driver calls ([kmalloc], [copy_from_user],
      [copy_to_user], [put_user], [wait_event_interruptible]) are functions
      of an explicit environment: whether the allocation succeeds and what
      the fresh block holds, what the user memory yields, and what happens
      while the caller sleeps.
    - of the wait queue [rb.rq] and the mutex [rb.lock] the state keeps
      whether [init_waitqueue_head] and [mutex_init] have run on them: a
      wait-queue operation on a queue that was never initialised makes the
      kernel fault, and that fault is one of the ways a call can end.
    - calls run one at a time: [mutex_lock] and [mutex_unlock] never wait
      and have no result of their own (a mutex nobody holds is taken and
      released on its owner word alone, zero-filled or initialised); what
      other callers do shows only in what a sleeping caller finds when it
      wakes. *)

From Stdlib Require Import ZArith Lia.
From Stdlib Require Import Init.Byte.
From stdpp Require Import base option list list_numbers.

Local Open Scope Z_scope.

(* ===================================================================== *)
(** ** Undefined behaviour as a result *)

Inductive fault : Type :=
| DivByZero      (* [x % 0] *)
| NullDeref      (* access through a null pointer *)
| OutOfBounds.   (* index outside the allocated block *)

Inductive exec (A : Type) : Type :=
| Done (a : A)
| Undefined (f : fault).
Arguments Done {A} a.
Arguments Undefined {A} f.

#[global] Instance exec_ret : MRet exec := fun A a => Done a.
#[global] Instance exec_bind : MBind exec := fun A B k m =>
  match m with
  | Done a => k a
  | Undefined f => Undefined f
  end.

(* ===================================================================== *)
(** ** Machine integers *)

Module Word.

(** [size_t]: unsigned, 64 bits. *)
Definition SIZE_WIDTH : Z := 64.
Definition size_modulus : Z := 2 ^ SIZE_WIDTH.
Definition to_size (z : Z) : Z := z mod size_modulus.
Definition size_add (a b : Z) : Z := to_size (a + b).
Definition size_sub (a b : Z) : Z := to_size (a - b).

(** [a % b] on [size_t]; the remainder by zero is undefined. *)
Definition size_rem (a b : Z) : exec Z :=
  if b =? 0 then Undefined DivByZero else Done (a mod b).

(** [unsigned int]: 32 bits. *)
Definition to_uint (z : Z) : Z := z mod 2 ^ 32.

(** [int]: signed, 32 bits, two's complement. *)
Definition INT_MAX : Z := 2 ^ 31 - 1.
Definition to_int (z : Z) : Z := (z + 2 ^ 31) mod 2 ^ 32 - 2 ^ 31.

(** [ssize_t] and [long]: signed, 64 bits. *)
Definition to_ssize (z : Z) : Z := (z + 2 ^ 63) mod 2 ^ 64 - 2 ^ 63.

End Word.
Import Word.

(** The error numbers of [<linux/errno.h>] the driver returns (negated). *)
Definition ENOMEM : Z := 12.
Definition EFAULT : Z := 14.
Definition EINVAL : Z := 22.
Definition ENOSPC : Z := 28.
Definition ERESTARTSYS : Z := 512.

(** The request codes of [common.h], with the encoding of
    [<asm-generic/ioctl.h>]: direction in bits 30-31, argument size in bits
    16-29, type in bits 8-15, number in bits 0-7. Both [int *] and
    [struct queue_data *] are pointers, 8 bytes wide. *)
Definition IOC (dir type nr sz : Z) : Z :=
  Z.lor (Z.lor (Z.lor (Z.shiftl dir 30) (Z.shiftl type 8)) nr) (Z.shiftl sz 16).
Definition IOC_WRITE : Z := 1.
Definition IOC_READ : Z := 2.
Definition IOW (type nr sz : Z) : Z := IOC IOC_WRITE type nr sz.
Definition IOR (type nr sz : Z) : Z := IOC IOC_READ type nr sz.

Definition char_a : Z := 97.
Definition char_b : Z := 98.
Definition char_c : Z := 99.
Definition sizeof_pointer : Z := 8.

Definition SET_SIZE_OF_QUEUE : Z := IOW char_a char_a sizeof_pointer.
Definition PUSH_DATA : Z := IOW char_a char_b sizeof_pointer.
Definition POP_DATA : Z := IOR char_a char_c sizeof_pointer.

(* ===================================================================== *)
(** ** Memory blocks *)

(** A [char *] into kernel memory: [None] is the null pointer, [Some l] a
    block of [length l] bytes. *)
Definition block : Type := option (list byte).

Definition deref (p : block) : exec (list byte) :=
  match p with
  | None => Undefined NullDeref
  | Some l => Done l
  end.

Definition load_at (l : list byte) (i : Z) : exec byte :=
  match l !! Z.to_nat i with
  | Some b => Done b
  | None => Undefined OutOfBounds
  end.

Definition store_at (l : list byte) (i : Z) (b : byte) : exec (list byte) :=
  if bool_decide (Z.to_nat i < length l)%nat
  then Done (<[Z.to_nat i := b]> l)
  else Undefined OutOfBounds.

(** [p[i]] as a value and [p[i] = b]. *)
Definition load (p : block) (i : Z) : exec byte :=
  l ← deref p; load_at l i.

Definition store (p : block) (i : Z) (b : byte) : exec block :=
  l ← deref p; l' ← store_at l i b; Done (Some l').

(** [kmalloc(n, GFP_KERNEL)]: the environment decides whether the
    allocation succeeds and, when it does, what the uninitialised block
    holds ([junk k] is the byte at offset [k]). *)
Definition allocator : Type := option (nat -> byte).

Definition kmalloc (a : allocator) (n : Z) : block :=
  match a with
  | None => None
  | Some junk => Some (map junk (seq 0 (Z.to_nat n)))
  end.

(* ===================================================================== *)
(** ** The ring buffer *)

(** [struct ringbuf]. Of the wait queue [rq] and the mutex [lock] the
    fields say whether [init_waitqueue_head] and [mutex_init] have run on
    them. *)
Record ringbuf : Type := Ringbuf {
  rb_buf : block;   (* kmalloc'd buffer *)
  rb_size : Z;      (* capacity *)
  rb_head : Z;      (* read index *)
  rb_tail : Z;      (* write index *)
  rb_count : Z;     (* bytes stored *)
  rb_rq : bool;     (* readers wait queue: initialised? *)
  rb_lock : bool    (* mutex: initialised? *)
}.

(** [static struct ringbuf rb;] is zero-filled when the module loads:
    neither the wait queue nor the mutex has been initialised. *)
Definition rb_static : ringbuf := Ringbuf None 0 0 0 0 false false.

Definition set_buf (p : block) (rb : ringbuf) : ringbuf :=
  Ringbuf p (rb_size rb) (rb_head rb) (rb_tail rb) (rb_count rb)
    (rb_rq rb) (rb_lock rb).
Definition set_head (h : Z) (rb : ringbuf) : ringbuf :=
  Ringbuf (rb_buf rb) (rb_size rb) h (rb_tail rb) (rb_count rb)
    (rb_rq rb) (rb_lock rb).
Definition set_tail (t : Z) (rb : ringbuf) : ringbuf :=
  Ringbuf (rb_buf rb) (rb_size rb) (rb_head rb) t (rb_count rb)
    (rb_rq rb) (rb_lock rb).
Definition set_count (c : Z) (rb : ringbuf) : ringbuf :=
  Ringbuf (rb_buf rb) (rb_size rb) (rb_head rb) (rb_tail rb) c
    (rb_rq rb) (rb_lock rb).

(** [ringbuf_init]: returns the new [rb] and the [int] result. When
    [kmalloc] fails, [rb.buf] has already been overwritten with the null
    pointer and the other fields are left as they were; only when it
    succeeds are the wait queue and the mutex (re-)initialised. *)
Definition ringbuf_init (a : allocator) (sz : Z) (rb : ringbuf) : ringbuf * Z :=
  if sz =? 0 then (rb, - EINVAL)
  else
    let rb1 := set_buf (kmalloc a sz) rb in
    match rb_buf rb1 with
    | None => (rb1, - ENOMEM)
    | Some _ => (Ringbuf (rb_buf rb1) sz 0 0 0 true true, 0)
    end.

(** [ringbuf_free]: the wait queue and the mutex are left as they are. *)
Definition ringbuf_free (rb : ringbuf) : ringbuf :=
  let rb1 := match rb_buf rb with
             | Some _ => set_buf None rb
             | None => rb
             end in
  Ringbuf (rb_buf rb1) 0 0 0 0 (rb_rq rb1) (rb_lock rb1).

(** The body of the [for] loop of [ringbuf_push_locked], run [n] more
    times from index [i]. *)
Fixpoint push_loop (n : nat) (kdata : list byte) (i : Z) (rb : ringbuf)
  : exec ringbuf :=
  match n with
  | O => Done rb
  | S n' =>
      b ← load_at kdata i;
      p ← store (rb_buf rb) (rb_tail rb) b;
      t ← size_rem (size_add (rb_tail rb) 1) (rb_size rb);
      push_loop n' kdata (i + 1) (set_tail t (set_buf p rb))
  end.

(** [ringbuf_push_locked(kdata, len)]: the loop runs for [i = 0 .. len-1],
    that is [len] times. *)
Definition ringbuf_push_locked (kdata : list byte) (len : Z) (rb : ringbuf)
  : exec (ringbuf * Z) :=
  if len >? size_sub (rb_size rb) (rb_count rb) then Done (rb, - ENOSPC)
  else
    rb1 ← push_loop (Z.to_nat len) kdata 0 rb;
    Done (set_count (size_add (rb_count rb1) len) rb1, to_ssize len).

(** The body of the [for] loop of [ringbuf_pop_locked], run [n] more times
    from index [i]; [out] is the caller's block. *)
Fixpoint pop_loop (n : nat) (out : list byte) (i : Z) (rb : ringbuf)
  : exec (ringbuf * list byte) :=
  match n with
  | O => Done (rb, out)
  | S n' =>
      b ← load (rb_buf rb) (rb_head rb);
      o ← store_at out i b;
      h ← size_rem (size_add (rb_head rb) 1) (rb_size rb);
      pop_loop n' o (i + 1) (set_head h rb)
  end.

(** [ringbuf_pop_locked(out, len)]: returns the new [rb], the block [out]
    after the copy, and the number of bytes copied. *)
Definition ringbuf_pop_locked (out : list byte) (len : Z) (rb : ringbuf)
  : exec (ringbuf * list byte * Z) :=
  let tocopy := if len >? rb_count rb then rb_count rb else len in
  '(rb1, out1) ← pop_loop (Z.to_nat tocopy) out 0 rb;
  Done (set_count (size_sub (rb_count rb1) tocopy) rb1, out1, to_ssize tocopy).

(* ===================================================================== *)
(** ** The ioctl handler *)

(** A pointer into user memory: [None] when the address is not mapped,
    [Some l] for a mapped region holding the bytes [l]. *)
Definition user_region : Type := option (list byte).

(** [struct queue_data] of [common.h]. *)
Record queue_data : Type := QueueData {
  qd_length : Z;
  qd_data : user_region
}.

(** What the user memory at [arg] yields to the handler: the [int] read by
    [copy_from_user(&ks, arg, sizeof(int))], the structure read by
    [copy_from_user(&ud, arg, sizeof(ud))] ([None]: the copy faults), and
    whether [put_user] to the [length] field succeeds. *)
Record user_arg : Type := UserArg {
  arg_int : option Z;
  arg_qd : option queue_data;
  arg_length_writable : bool
}.

(** [copy_from_user(kbuf, src, n)] fills [kbuf] with [n] bytes of [src];
    [None] when the copy faults (a non-zero return). *)
Definition copy_from_user (kbuf : list byte) (src : user_region) (n : Z)
  : option (list byte) :=
  match src with
  | None => None
  | Some l =>
      if bool_decide (Z.to_nat n <= length l)%nat
      then Some (take (Z.to_nat n) l ++ drop (Z.to_nat n) kbuf)
      else None
  end.

(** [copy_to_user(dst, kbuf, n)]: the user region after the copy, and
    whether all [n] bytes were copied. The bytes that fit are written even
    when the copy then faults. *)
Definition copy_to_user (dst : user_region) (kbuf : list byte) (n : Z)
  : user_region * bool :=
  match dst with
  | None => (None, false)
  | Some l =>
      let k := Nat.min (Z.to_nat n) (length l) in
      (Some (take k kbuf ++ drop k l), bool_decide (Z.to_nat n <= length l)%nat)
  end.

(** What [wait_event_interruptible(rb.rq, rb.count > 0)] does to a caller
    that found the buffer empty: a signal interrupts the sleep, or the
    caller is woken and finds [rb] as the other callers left it. *)
Inductive wait_result : Type :=
| Interrupted
| Woken (s : ringbuf).

Record env : Type := Env {
  env_alloc : allocator;          (* the outcome of this call's kmalloc *)
  env_waits : list wait_result    (* the outcomes of its successive sleeps *)
}.

(** How a call ends: it returns a [long]; or the caller is still asleep in
    [wait_event_interruptible] when the environment has no more events; or
    the kernel faults inside a wait-queue operation on [rb.rq], because
    [init_waitqueue_head] never ran on it (the list head of a zero-filled
    wait queue is a pair of null pointers), and the caller never returns. *)
Inductive result : Type :=
| Returned (ret : Z)
| Blocked
| Oops.

(** The [for (;;)] loop of the [POP_DATA] case. *)
Inductive pop_wait_result : Type :=
| PopBreak (rb : ringbuf) (kbuf : list byte) (ret : Z)
| PopSignal (rb : ringbuf)
| PopAsleep (rb : ringbuf)
| PopOops (rb : ringbuf).

(** Each turn takes the lock, tests [rb.count > 0], and either pops and
    leaves the loop or releases the lock and sleeps on [rb.rq]. *)
Fixpoint pop_wait (ws : list wait_result) (kbuf : list byte) (len : Z)
  (rb : ringbuf) : exec pop_wait_result :=
  if rb_count rb >? 0 then
    '(rb1, kbuf1, ret) ← ringbuf_pop_locked kbuf len rb;
    Done (PopBreak rb1 kbuf1 ret)
  else if negb (rb_rq rb) then Done (PopOops rb)
  else
    match ws with
    | [] => Done (PopAsleep rb)
    | Interrupted :: _ => Done (PopSignal rb)
    | Woken s :: ws' => pop_wait ws' kbuf len s
    end.

(** [case SET_SIZE_OF_QUEUE:] *)
Definition set_size_case (e : env) (arg : user_arg) (rb : ringbuf)
  : exec (ringbuf * user_arg * result) :=
  match arg_int arg with
  | None => Done (rb, arg, Returned (- EFAULT))
  | Some ks0 =>
      let ks := to_int ks0 in
      if ks <=? 0 then Done (rb, arg, Returned (- EINVAL))
      else
        let rb1 := ringbuf_free rb in
        let '(rb2, ret) := ringbuf_init (env_alloc e) (to_size ks) rb1 in
        Done (rb2, arg, Returned ret)
  end.

(** [case PUSH_DATA:] the boolean tells whether the case called
    [wake_up_interruptible(&rb.rq)], which it does after releasing the
    lock and only when the push returned a positive count. *)
Definition push_data_case (e : env) (arg : user_arg) (rb : ringbuf)
  : exec (ringbuf * user_arg * result * bool) :=
  match arg_qd arg with
  | None => Done (rb, arg, Returned (- EFAULT), false)
  | Some ud =>
      let length := to_int (qd_length ud) in
      if length <=? 0 then Done (rb, arg, Returned (- EINVAL), false)
      else
        match kmalloc (env_alloc e) (to_size length) with
        | None => Done (rb, arg, Returned (- ENOMEM), false)
        | Some kbuf0 =>
            match copy_from_user kbuf0 (qd_data ud) (to_size length) with
            | None => Done (rb, arg, Returned (- EFAULT), false)
            | Some kbuf =>
                '(rb1, ret) ← ringbuf_push_locked kbuf (to_size length) rb;
                if ret >? 0 then
                  if rb_rq rb1 then Done (rb1, arg, Returned ret, true)
                  else Done (rb1, arg, Oops, true)
                else Done (rb1, arg, Returned ret, false)
            end
        end
  end.

(** [case POP_DATA:] *)
Definition pop_data_case (e : env) (arg : user_arg) (rb : ringbuf)
  : exec (ringbuf * user_arg * result) :=
  match arg_qd arg with
  | None => Done (rb, arg, Returned (- EFAULT))
  | Some ud =>
      let length := to_int (qd_length ud) in
      if length <=? 0 then Done (rb, arg, Returned (- EINVAL))
      else
        match kmalloc (env_alloc e) (to_size length) with
        | None => Done (rb, arg, Returned (- ENOMEM))
        | Some kbuf0 =>
            w ← pop_wait (env_waits e) kbuf0 (to_size length) rb;
            match w with
            | PopAsleep rb1 => Done (rb1, arg, Blocked)
            | PopOops rb1 => Done (rb1, arg, Oops)
            | PopSignal rb1 => Done (rb1, arg, Returned (- ERESTARTSYS))
            | PopBreak rb1 kbuf ret =>
                if ret >? 0 then
                  let '(data1, ok) := copy_to_user (qd_data ud) kbuf ret in
                  let arg1 :=
                    UserArg (arg_int arg)
                      (Some (QueueData (qd_length ud) data1))
                      (arg_length_writable arg) in
                  if negb ok then Done (rb1, arg1, Returned (- EFAULT))
                  else if negb (arg_length_writable arg)
                  then Done (rb1, arg1, Returned (- EFAULT))
                  else
                    let arg2 :=
                      UserArg (Some (to_int ret))
                        (Some (QueueData (to_int ret) data1))
                        (arg_length_writable arg) in
                    Done (rb1, arg2, Returned ret)
                else Done (rb1, arg, Returned ret)
            end
        end
  end.

(** [ringbuf_ioctl(file, cmd, arg)]: returns the new [rb], the user memory
    at [arg] after the call, and how the call ended. [cmd] is an
    [unsigned int]. *)
Definition ringbuf_ioctl (e : env) (cmd : Z) (arg : user_arg) (rb : ringbuf)
  : exec (ringbuf * user_arg * result) :=
  let cmd := to_uint cmd in
  if cmd =? SET_SIZE_OF_QUEUE then set_size_case e arg rb
  else if cmd =? PUSH_DATA then
    '(rb1, arg1, r, _) ← push_data_case e arg rb;
    Done (rb1, arg1, r)
  else if cmd =? POP_DATA then pop_data_case e arg rb
  else Done (rb, arg, Returned (- EINVAL)).

(* ===================================================================== *)
(** ** Specification vocabulary *)

#[global] Instance byte_inhabited : Inhabited byte := populate x00.

(** The index of storage [k] positions after [start], wrapping. *)
Definition slot (sz start k : Z) : nat := Z.to_nat ((start + k) mod sz).

(** The [n] bytes of the storage [l] read from [start], wrapping. *)
Definition ring_slice (l : list byte) (sz start n : Z) : list byte :=
  (fun k => l !!! slot sz start k) <$> seqZ 0 n.

(** The queue a buffer holds: [rb.count] bytes read from [rb.head]. *)
Definition contents (rb : ringbuf) : list byte :=
  match rb_buf rb with
  | None => []
  | Some l => ring_slice l (rb_size rb) (rb_head rb) (rb_count rb)
  end.

(** A buffer instance exists and its bookkeeping is consistent. *)
Definition wf (rb : ringbuf) : Prop :=
  (exists l, rb_buf rb = Some l /\ Z.of_nat (length l) = rb_size rb) /\
  0 < rb_size rb <= INT_MAX /\
  0 <= rb_head rb < rb_size rb /\
  0 <= rb_count rb <= rb_size rb /\
  rb_tail rb = (rb_head rb + rb_count rb) mod rb_size rb.

(** No storage is allocated. *)
Definition uninitialized (rb : ringbuf) : Prop :=
  rb_buf rb = None /\ rb_size rb = 0 /\ rb_count rb = 0.

(** No buffer: no storage and every data field 0, as at module load and
    after [ringbuf_free]. *)
Definition idle (rb : ringbuf) : Prop :=
  rb_buf rb = None /\ rb_size rb = 0 /\ rb_head rb = 0 /\ rb_tail rb = 0 /\
  rb_count rb = 0.

Definition inv (rb : ringbuf) : Prop := idle rb \/ wf rb.

(** The wait queue and the mutex are initialised together, and they are
    initialised whenever a buffer exists. *)
Definition synced (rb : ringbuf) : Prop :=
  rb_rq rb = rb_lock rb /\ (rb_buf rb <> None -> rb_rq rb = true).

(** The bounds the data model states for [count], [head] and [tail]. *)
Definition capacity_invariant (rb : ringbuf) : Prop :=
  0 <= rb_count rb <= rb_size rb /\
  (rb_buf rb <> None ->
   0 <= rb_head rb < rb_size rb /\ 0 <= rb_tail rb < rb_size rb).

(** The values [rb] takes: its value at module load, and its value after
    any call of the handler made on a value it can take. A caller that
    slept finds [rb] as other calls left it, so the values the environment
    hands back on a wake-up are values [rb] can take as well. *)
Inductive reachable : ringbuf -> Prop :=
| reach_load : reachable rb_static
| reach_ioctl e cmd arg rb rb' arg' r :
    reachable rb ->
    (forall s, Woken s ∈ env_waits e -> reachable s) ->
    ringbuf_ioctl e cmd arg rb = Done (rb', arg', r) ->
    reachable rb'.

(** The [long] a call returned, if it returned. *)
Definition returned {A B : Type} (x : exec (A * B * result)) : option Z :=
  match x with
  | Done (_, _, Returned ret) => Some ret
  | _ => None
  end.

(** The value of [rb] a run of the wait loop leaves. *)
Definition pop_wait_state (w : pop_wait_result) : ringbuf :=
  match w with
  | PopBreak rb _ _ | PopSignal rb | PopAsleep rb | PopOops rb => rb
  end.

(** Concrete inputs for the examples: a buffer of capacity 4, an
    environment whose allocations succeed and whose caller never sleeps,
    and the user memory of the three requests. *)
Definition ring4 (h t c : Z) : ringbuf :=
  Ringbuf (Some [x00; x00; x00; x00]) 4 h t c true true.
Definition env_zero : env := Env (Some (fun _ => x00)) [].
Definition arg_set_size (ks : Z) : user_arg := UserArg (Some ks) None false.
Definition arg_queue (n : Z) (data : list byte) : user_arg :=
  UserArg None (Some (QueueData n (Some data))) true.

(* ===================================================================== *)
(** ** Module load *)

(** What the module holds registered with the kernel: the device number
    region ([devnum]), the character device ([rb_cdev]), the device class
    ([rb_class]) and the device node. *)
Record registered : Type := Registered {
  reg_region : bool;
  reg_cdev : bool;
  reg_class : bool;
  reg_device : bool
}.

Definition registered_none : registered := Registered false false false false.
Definition registered_all : registered := Registered true true true true.

Definition set_region (b : bool) (k : registered) : registered :=
  Registered b (reg_cdev k) (reg_class k) (reg_device k).
Definition set_cdev (b : bool) (k : registered) : registered :=
  Registered (reg_region k) b (reg_class k) (reg_device k).
Definition set_class (b : bool) (k : registered) : registered :=
  Registered (reg_region k) (reg_cdev k) b (reg_device k).
Definition set_device (b : bool) (k : registered) : registered :=
  Registered (reg_region k) (reg_cdev k) (reg_class k) b.

(** The release calls. *)
Definition unregister_chrdev_region (k : registered) : registered :=
  set_region false k.
Definition cdev_del (k : registered) : registered := set_cdev false k.
Definition class_destroy (k : registered) : registered := set_class false k.

(** What the four registration calls of [ringbuf_init_module] return: the
    [int] of [alloc_chrdev_region] and of [cdev_add], and the pointers of
    [class_create] and [device_create] as [unsigned long] values. *)
Record load_env : Type := LoadEnv {
  le_alloc_chrdev_region : Z;
  le_cdev_add : Z;
  le_class_create : Z;
  le_device_create : Z
}.

(** [IS_ERR] and [PTR_ERR] of [<linux/err.h>]: the last [MAX_ERRNO]
    addresses encode error numbers. *)
Definition MAX_ERRNO : Z := 4095.
Definition IS_ERR (p : Z) : bool := to_size (- MAX_ERRNO) <=? to_size p.
Definition PTR_ERR (p : Z) : Z := to_ssize (to_size p).

(** [ringbuf_init_module]: returns what is registered afterwards and the
    [int] result. The messages it logs are left out. *)
Definition ringbuf_init_module (le : load_env) (k : registered)
  : registered * Z :=
  let ret := to_int (le_alloc_chrdev_region le) in
  if negb (ret =? 0) then (k, ret)
  else
    let k1 := set_region true k in
    let ret := to_int (le_cdev_add le) in
    if negb (ret =? 0) then (unregister_chrdev_region k1, ret)
    else
      let k2 := set_cdev true k1 in
      let rb_class := le_class_create le in
      if IS_ERR rb_class then
        (unregister_chrdev_region (cdev_del k2), to_int (PTR_ERR rb_class))
      else
        let k3 := set_class true k2 in
        if IS_ERR (le_device_create le) then
          (unregister_chrdev_region (cdev_del (class_destroy k3)), - ENOMEM)
        else (set_device true k3, 0).

(* ===================================================================== *)
(** ** The control utility *)

(** What the utility prints: [perror("open")],
    [perror("ioctl SET_SIZE_OF_QUEUE")], or the line
    "Queue size set to <size>". *)
Inductive tool_output : Type :=
| PerrorOpen
| PerrorIoctl
| QueueSizeSet (size : Z).

(** The value the [ioctl] system call hands to a user program: a negative
    result of the handler becomes [-1] (with [errno] set). *)
Definition user_ioctl_result (ret : Z) : Z := if ret <? 0 then -1 else ret.

(** [main] of the utility, run against the driver: [fd] is what [open]
    returned, [e] the environment of the handler. Returns the new [rb],
    what was printed and the exit status ([None] if the call never
    returned). *)
Definition set_size_main (fd : Z) (e : env) (rb : ringbuf)
  : exec (ringbuf * list tool_output * option Z) :=
  if to_int fd <? 0 then Done (rb, [PerrorOpen], Some 1)
  else
    let size := 100 in
    '(rb1, arg1, r) ← ringbuf_ioctl e SET_SIZE_OF_QUEUE
                        (UserArg (Some size) None true) rb;
    match r with
    | Blocked | Oops => Done (rb1, [], None)
    | Returned ret =>
        if user_ioctl_result ret =? -1 then Done (rb1, [PerrorIoctl], Some 0)
        else Done (rb1, [QueueSizeSet (default size (arg_int arg1))], Some 0)
    end.

(* ===================================================================== *)
(** ** Arithmetic of wrapped indices *)

Section Arith.

Lemma to_size_small z : 0 <= z < size_modulus -> to_size z = z.
Proof. intros H. unfold to_size. now apply Z.mod_small. Qed.

Lemma to_ssize_small z : 0 <= z < 2 ^ 63 -> to_ssize z = z.
Proof. intros H. unfold to_ssize. rewrite Z.mod_small; lia. Qed.

Lemma to_int_small z : - 2 ^ 31 <= z <= INT_MAX -> to_int z = z.
Proof. unfold INT_MAX, to_int. intros H. rewrite Z.mod_small; lia. Qed.

Lemma to_int_range z : - 2 ^ 31 <= to_int z <= INT_MAX.
Proof.
  unfold INT_MAX, to_int.
  pose proof (Z.mod_pos_bound (z + 2 ^ 31) (2 ^ 32) ltac:(lia)). lia.
Qed.

Lemma INT_MAX_lt_modulus : INT_MAX < size_modulus.
Proof. reflexivity. Qed.

Lemma mod_apart sz a b :
  0 < sz -> a < b < a + sz -> a mod sz <> b mod sz.
Proof.
  intros Hsz Hab Heq.
  assert (Hz : (b - a) mod sz = 0).
  { rewrite Zminus_mod, Heq, Z.sub_diag. now apply Z.mod_0_l, Z.neq_sym, Z.lt_neq. }
  rewrite Z.mod_small in Hz; lia.
Qed.

Lemma slot_apart sz s k1 k2 :
  0 < sz -> k1 <> k2 -> Z.abs (k2 - k1) < sz -> slot sz s k1 <> slot sz s k2.
Proof.
  intros Hsz Hne Hd Heq. unfold slot in Heq.
  pose proof (Z.mod_pos_bound (s + k1) sz Hsz).
  pose proof (Z.mod_pos_bound (s + k2) sz Hsz).
  apply Z2Nat.inj in Heq; [|lia..].
  destruct (Z.lt_ge_cases k1 k2).
  - apply (mod_apart sz (s + k1) (s + k2)); [done|lia|done].
  - apply (mod_apart sz (s + k2) (s + k1)); [done|lia|done].
Qed.

Lemma slot_shift sz s a k : slot sz ((s + a) mod sz) k = slot sz s (a + k).
Proof. unfold slot. now rewrite Zplus_mod_idemp_l, Z.add_assoc. Qed.

Lemma slot_0 sz s : 0 <= s < sz -> slot sz s 0 = Z.to_nat s.
Proof. intros H. unfold slot. now rewrite Z.add_0_r, Z.mod_small. Qed.

End Arith.

(* ===================================================================== *)
(** ** The push loop *)

(** [n] iterations write [kdata[i ..]] to the [n] slots from [tail] on and
    touch no other byte of storage. *)
Lemma push_loop_spec n : forall kdata i l sz h t c rq lk,
  Z.of_nat (length l) = sz -> sz < size_modulus -> 0 <= t < sz ->
  Z.of_nat n <= sz -> 0 <= i -> i + Z.of_nat n <= Z.of_nat (length kdata) ->
  exists l',
    push_loop n kdata i (Ringbuf (Some l) sz h t c rq lk)
      = Done (Ringbuf (Some l') sz h ((t + Z.of_nat n) mod sz) c rq lk) /\
    length l' = length l /\
    (forall k, 0 <= k < Z.of_nat n ->
       l' !! slot sz t k = kdata !! Z.to_nat (i + k)) /\
    (forall j, (forall k, 0 <= k < Z.of_nat n -> j <> slot sz t k) ->
       l' !! j = l !! j).
Proof.
  induction n as [|n IH]; intros kdata i l sz h t c rq lk Hlen Hsz Ht Hn Hi Hk.
  - exists l. cbn. rewrite Z.add_0_r, Z.mod_small by done.
    split; [done|]. split; [done|]. split; [intros; lia | done].
  - cbn [push_loop].
    destruct (lookup_lt_is_Some_2 kdata (Z.to_nat i)) as [b Hb]; [lia|].
    unfold load_at. rewrite Hb. cbn.
    unfold store_at. rewrite bool_decide_true by lia. cbn.
    unfold size_rem, size_add. rewrite to_size_small by lia.
    destruct (Z.eqb_spec sz 0) as [|_]; [lia|]. cbn.
    unfold set_tail, set_buf. cbn.
    pose proof (Z.mod_pos_bound (t + 1) sz ltac:(lia)) as Ht1.
    destruct (IH kdata (i + 1) (<[Z.to_nat t := b]> l) sz h ((t + 1) mod sz) c
                rq lk)
      as (l' & Hrun & Hlen' & Hnew & Hold);
      [rewrite length_insert; lia | lia..|].
    exists l'. rewrite Hrun. split; [|split; [|split]].
    + do 2 f_equal. rewrite Zplus_mod_idemp_l. f_equal. lia.
    + now rewrite Hlen', length_insert.
    + intros k Hk'. destruct (Z.eq_dec k 0) as [->|Hk0].
      * rewrite Hold.
        -- rewrite slot_0 by done. rewrite list_lookup_insert_eq by lia.
           now rewrite Z.add_0_r.
        -- intros k' Hk''. rewrite (slot_shift sz t 1 k').
           apply slot_apart; lia.
      * replace k with (1 + (k - 1)) at 1 by lia.
        rewrite <- slot_shift, Hnew by lia. f_equal. lia.
    + intros j Hj. rewrite Hold.
      * apply list_lookup_insert_ne. rewrite <- (slot_0 sz t) by done.
        intros Heq. apply (Hj 0); [lia|done].
      * intros k Hk'. rewrite slot_shift. apply Hj. lia.
Qed.

(* ===================================================================== *)
(** ** Slices of the storage *)

Lemma length_ring_slice l sz s n : length (ring_slice l sz s n) = Z.to_nat n.
Proof. unfold ring_slice. now rewrite length_fmap, length_seqZ. Qed.

Lemma lookup_ring_slice l sz s n (k : nat) :
  Z.of_nat k < n ->
  ring_slice l sz s n !! k = Some (l !!! slot sz s (Z.of_nat k)).
Proof.
  intros Hk. unfold ring_slice.
  now rewrite list_lookup_fmap, lookup_seqZ_lt by done.
Qed.

Lemma ring_slice_app l sz s a b :
  0 <= a -> 0 <= b ->
  ring_slice l sz s (a + b)
    = ring_slice l sz s a ++ ring_slice l sz ((s + a) mod sz) b.
Proof.
  intros Ha Hb. unfold ring_slice.
  rewrite seqZ_app, fmap_app by done. f_equal.
  replace (seqZ (0 + a) b) with (Z.add a <$> seqZ 0 b)
    by (rewrite fmap_add_seqZ; f_equal; lia).
  rewrite <- list_fmap_compose.
  apply list_fmap_ext. intros _ k _. cbn. now rewrite slot_shift.
Qed.

Lemma ring_slice_ext l l' sz s n :
  (forall k, 0 <= k < n -> l' !! slot sz s k = l !! slot sz s k) ->
  ring_slice l' sz s n = ring_slice l sz s n.
Proof.
  intros H. unfold ring_slice. apply list_fmap_ext. intros i k Hk.
  apply lookup_seqZ in Hk as [-> Hk].
  rewrite !list_lookup_total_alt, H by lia. done.
Qed.

(** The pop loop leaves the storage alone and fills the caller's block
    with the slice read from [head]. *)
Lemma pop_loop_spec n : forall out i l sz h t c rq lk,
  Z.of_nat (length l) = sz -> sz < size_modulus -> 0 <= h < sz ->
  0 <= i -> i + Z.of_nat n <= Z.of_nat (length out) ->
  pop_loop n out i (Ringbuf (Some l) sz h t c rq lk)
    = Done (Ringbuf (Some l) sz ((h + Z.of_nat n) mod sz) t c rq lk,
            take (Z.to_nat i) out ++ ring_slice l sz h (Z.of_nat n)
              ++ drop (Z.to_nat (i + Z.of_nat n)) out).
Proof.
  induction n as [|n IH]; intros out i l sz h t c rq lk Hlen Hsz Hh Hi Hk.
  - cbn [pop_loop]. change (ring_slice l sz h (Z.of_nat 0)) with (@nil byte).
    rewrite !Z.add_0_r, Z.mod_small by done. cbn [app].
    now rewrite take_drop.
  - cbn [pop_loop].
    destruct (lookup_lt_is_Some_2 l (Z.to_nat h)) as [b Hb]; [lia|].
    unfold load, load_at. cbn. rewrite Hb. cbn.
    unfold store_at. rewrite bool_decide_true by lia. cbn.
    unfold size_rem, size_add. rewrite to_size_small by lia.
    destruct (Z.eqb_spec sz 0) as [|_]; [lia|]. cbn.
    unfold set_head. cbn.
    pose proof (Z.mod_pos_bound (h + 1) sz ltac:(lia)) as Hh1.
    rewrite IH by (rewrite ?length_insert; lia).
    rewrite Zplus_mod_idemp_l.
    replace (h + 1 + Z.of_nat n) with (h + Z.of_nat (S n)) by lia.
    do 2 f_equal.
    replace (Z.of_nat (S n)) with (1 + Z.of_nat n) by lia.
    rewrite ring_slice_app by lia.
    replace (Z.to_nat (i + 1)) with (Z.to_nat i + 1)%nat by lia.
    replace (Z.to_nat (i + 1 + Z.of_nat n)) with (Z.to_nat i + 1 + n)%nat by lia.
    replace (Z.to_nat (i + (1 + Z.of_nat n))) with (Z.to_nat i + 1 + n)%nat by lia.
    replace (ring_slice l sz h 1) with [b].
    2:{ change (ring_slice l sz h 1) with [l !!! slot sz h 0].
        rewrite slot_0 by done.
        apply list_lookup_alt in Hb as [_ <-]. done. }
    rewrite <- !drop_drop, insert_take_drop by lia.
    rewrite (take_app_add' _ _ (Z.to_nat i) 1) by (rewrite length_take; lia).
    rewrite (drop_app_length' _ _ (Z.to_nat i)) by (rewrite length_take; lia).
    cbn [take drop]. rewrite <- !app_assoc. cbn [app].
    rewrite take_0. cbn [app Nat.add]. rewrite !drop_drop.
    do 4 f_equal. lia.
Qed.

(* ===================================================================== *)
(** ** The two queue operations on a consistent buffer *)

Lemma wf_modulus rb : wf rb -> rb_size rb < size_modulus.
Proof. intros (_ & H & _). pose proof INT_MAX_lt_modulus. lia. Qed.

Lemma push_locked_nospace kdata len rb :
  len > size_sub (rb_size rb) (rb_count rb) ->
  ringbuf_push_locked kdata len rb = Done (rb, - ENOSPC).
Proof.
  intros H. unfold ringbuf_push_locked.
  now rewrite (proj2 (Z.gtb_gt _ _)) by lia.
Qed.

Lemma push_locked_ok kdata len rb l :
  wf rb -> rb_buf rb = Some l ->
  0 <= len <= rb_size rb - rb_count rb ->
  len <= Z.of_nat (length kdata) ->
  exists l',
    let rb' := Ringbuf (Some l') (rb_size rb) (rb_head rb)
                 ((rb_tail rb + len) mod rb_size rb) (rb_count rb + len)
                 (rb_rq rb) (rb_lock rb) in
    ringbuf_push_locked kdata len rb = Done (rb', len) /\
    wf rb' /\
    contents rb' = contents rb ++ take (Z.to_nat len) kdata /\
    length l' = length l /\
    (forall k, 0 <= k < len ->
       l' !! slot (rb_size rb) (rb_tail rb) k = kdata !! Z.to_nat k) /\
    (forall j,
       (forall k, 0 <= k < len -> j <> slot (rb_size rb) (rb_tail rb) k) ->
       l' !! j = l !! j).
Proof.
  intros Hwf Hbuf Hlen Hk. pose proof (wf_modulus rb Hwf) as Hm.
  destruct rb as [p sz h t c rq lk].
  destruct Hwf as ((l0 & Hp & Hl) & Hsz & Hh & Hc & Ht). cbn in *.
  rewrite Hp in Hbuf. injection Hbuf as ->. subst p.
  pose proof (Z.mod_pos_bound (h + c) sz ltac:(lia)) as Htr.
  destruct (push_loop_spec (Z.to_nat len) kdata 0 l sz h t c rq lk)
    as (l' & Hrun & Hlen' & Hnew & Hold); [lia..|].
  rewrite Z2Nat.id in Hrun, Hnew, Hold by lia.
  exists l'. cbn zeta. split; [|split; [|split; [|split; [|split]]]].
  - unfold ringbuf_push_locked. cbn.
    unfold size_sub. rewrite to_size_small by lia.
    destruct (Z.gtb_spec len (sz - c)); [lia|].
    rewrite Hrun. cbn. unfold set_count, size_add. cbn.
    rewrite to_size_small, to_ssize_small; [done| |lia].
    unfold INT_MAX in Hsz. lia.
  - split; [exists l'; cbn; split; [done|lia]|]. cbn.
    split; [lia|]. split; [lia|]. split; [lia|].
    rewrite Ht, Zplus_mod_idemp_l. f_equal. lia.
  - unfold contents. cbn.
    rewrite ring_slice_app by lia. rewrite <- Ht. f_equal.
    + apply ring_slice_ext. intros k Hk'. apply Hold.
      intros k' Hk''. rewrite Ht, slot_shift. apply slot_apart; lia.
    + apply list_eq. intros k.
      destruct (Z.lt_ge_cases (Z.of_nat k) len) as [Hlt|Hge].
      * rewrite lookup_ring_slice, lookup_take_lt by lia.
        destruct (lookup_lt_is_Some_2 kdata k) as [x Hx]; [lia|].
        rewrite Hx. f_equal. apply list_lookup_total_correct.
        rewrite Hnew by lia. now rewrite Z.add_0_l, Nat2Z.id.
      * rewrite !lookup_ge_None_2; [done| |].
        -- rewrite length_take. lia.
        -- rewrite length_ring_slice. lia.
  - done.
  - intros k Hk'. now rewrite Hnew, Z.add_0_l.
  - done.
Qed.

Lemma pop_locked_ok out len rb :
  wf rb -> 0 <= len ->
  Z.min len (rb_count rb) <= Z.of_nat (length out) ->
  let n := Z.min len (rb_count rb) in
  let rb' := Ringbuf (rb_buf rb) (rb_size rb)
               ((rb_head rb + n) mod rb_size rb) (rb_tail rb)
               (rb_count rb - n) (rb_rq rb) (rb_lock rb) in
  ringbuf_pop_locked out len rb
    = Done (rb', take (Z.to_nat n) (contents rb) ++ drop (Z.to_nat n) out, n) /\
  wf rb' /\
  contents rb' = drop (Z.to_nat n) (contents rb).
Proof.
  intros Hwf Hlen Hout n. pose proof (wf_modulus rb Hwf) as Hm.
  destruct rb as [p sz h t c rq lk].
  destruct Hwf as ((l & Hp & Hl) & Hsz & Hh & Hc & Ht). cbn in *. subst p.
  assert (Hn : 0 <= n <= c) by (subst n; lia).
  assert (Hsplit : ring_slice l sz h c
            = ring_slice l sz h n ++ ring_slice l sz ((h + n) mod sz) (c - n)).
  { rewrite <- ring_slice_app by lia. f_equal. lia. }
  split; [|split].
  - unfold ringbuf_pop_locked. cbn.
    replace (if len >? c then c else len) with n
      by (subst n; destruct (Z.gtb_spec len c); lia).
    rewrite (pop_loop_spec (Z.to_nat n) out 0 l sz h t c rq lk) by lia.
    cbn. unfold set_count, size_sub. cbn.
    rewrite Z2Nat.id, Z.add_0_l, to_size_small, to_ssize_small; [| |lia|lia].
    2:{ unfold INT_MAX in Hsz. lia. }
    do 3 f_equal. unfold contents. cbn. rewrite Hsplit.
    rewrite take_app_length' by (rewrite length_ring_slice; lia). done.
  - split; [exists l; cbn; split; [done|lia]|]. cbn.
    pose proof (Z.mod_pos_bound (h + n) sz ltac:(lia)).
    split; [lia|]. split; [lia|]. split; [lia|].
    rewrite Ht, Zplus_mod_idemp_l. f_equal. lia.
  - unfold contents. cbn. rewrite Hsplit.
    rewrite drop_app_length' by (rewrite length_ring_slice; lia). done.
Qed.

Lemma pop_locked_idle out len rb :
  idle rb -> 0 <= len -> ringbuf_pop_locked out len rb = Done (rb, out, 0).
Proof.
  intros (Hb & Hs & Hh & Ht & Hc) Hlen. unfold ringbuf_pop_locked.
  rewrite Hc.
  replace (if len >? 0 then 0 else len) with 0
    by (destruct (Z.gtb_spec len 0); lia).
  change (Z.to_nat 0) with 0%nat. cbn [pop_loop]. unfold mbind, exec_bind.
  rewrite Hc. change (size_sub 0 0) with 0. change (to_ssize 0) with 0.
  destruct rb. cbn in Hc. now subst.
Qed.

Lemma idle_static : idle rb_static.
Proof. repeat split. Qed.

Lemma pop_locked_static out len :
  0 <= len -> ringbuf_pop_locked out len rb_static = Done (rb_static, out, 0).
Proof. apply pop_locked_idle, idle_static. Qed.

Lemma push_locked_idle kdata len rb :
  idle rb -> 0 < len -> ringbuf_push_locked kdata len rb = Done (rb, - ENOSPC).
Proof.
  intros (Hb & Hs & Hh & Ht & Hc) Hlen. apply push_locked_nospace.
  rewrite Hs, Hc. change (size_sub 0 0) with 0. lia.
Qed.

Lemma push_locked_idle_empty kdata rb :
  idle rb -> ringbuf_push_locked kdata 0 rb = Done (rb, 0).
Proof.
  intros (Hb & Hs & Hh & Ht & Hc). unfold ringbuf_push_locked.
  rewrite Hs, Hc. change (0 >? size_sub 0 0) with false. cbv iota.
  change (Z.to_nat 0) with 0%nat. cbn [push_loop]. unfold mbind, exec_bind.
  rewrite Hc. change (size_add 0 0) with 0. change (to_ssize 0) with 0.
  destruct rb. cbn in Hc. now subst.
Qed.

(* ===================================================================== *)
(** ** The handler keeps the buffer consistent *)

Lemma wf_count_pos rb : inv rb -> rb_count rb > 0 -> wf rb.
Proof. intros [(_ & _ & _ & _ & H0) | H] Hc; [lia | done]. Qed.

Lemma push_locked_inv kdata len rb :
  inv rb -> 0 <= len < size_modulus -> len <= Z.of_nat (length kdata) ->
  exists rb' ret, ringbuf_push_locked kdata len rb = Done (rb', ret) /\ inv rb'.
Proof.
  intros [Hidle | Hwf] Hlen Hk.
  - destruct (Z.eq_dec len 0) as [-> | Hne].
    + exists rb, 0. split; [now apply push_locked_idle_empty | now left].
    + exists rb, (- ENOSPC). split; [|now left].
      apply push_locked_idle; [done|lia].
  - pose proof Hwf as ((l & Hl & _) & Hsz & _ & Hc & _).
    pose proof INT_MAX_lt_modulus.
    destruct (Z.le_gt_cases len (rb_size rb - rb_count rb)) as [Hfit | Hfull].
    + destruct (push_locked_ok kdata len rb l) as (l' & Hrun & Hwf' & _);
        [done | done | lia | done |].
      eexists _, _. split; [exact Hrun | now right].
    + exists rb, (- ENOSPC). split; [|now right].
      apply push_locked_nospace. unfold size_sub.
      rewrite to_size_small; lia.
Qed.

Lemma pop_locked_inv out len rb :
  inv rb -> 0 <= len -> len <= Z.of_nat (length out) ->
  exists rb' out' ret,
    ringbuf_pop_locked out len rb = Done (rb', out', ret) /\ inv rb' /\
    length out' = length out /\ 0 <= ret <= len /\ ret <= rb_count rb.
Proof.
  intros [Hidle | Hwf] Hlen Hk.
  - exists rb, out, 0. split; [now apply pop_locked_idle|].
    split; [now left|]. destruct Hidle as (_ & _ & _ & _ & ->). lia.
  - destruct (pop_locked_ok out len rb Hwf Hlen) as (Hrun & Hwf' & _); [lia|].
    eexists _, _, _. split; [exact Hrun|]. split; [now right|].
    pose proof Hwf as (_ & _ & _ & Hc & _).
    split; [|lia].
    rewrite length_app, length_take, length_drop.
    unfold contents. destruct Hwf as ((l & -> & _) & _).
    rewrite length_ring_slice. lia.
Qed.

Lemma ringbuf_free_eq rb :
  ringbuf_free rb = Ringbuf None 0 0 0 0 (rb_rq rb) (rb_lock rb).
Proof. now destruct rb as [[l|] sz h t c rq lk]. Qed.

Lemma idle_free rb : idle (ringbuf_free rb).
Proof. rewrite ringbuf_free_eq. repeat split. Qed.

Lemma length_kmalloc a n l : kmalloc a n = Some l -> length l = Z.to_nat n.
Proof.
  destruct a as [junk|]; cbn; [|done].
  intros [= <-]. now rewrite length_map, length_seq.
Qed.

Lemma length_copy_from_user kbuf src n kbuf' :
  copy_from_user kbuf src n = Some kbuf' ->
  length kbuf = Z.to_nat n -> length kbuf' = Z.to_nat n.
Proof.
  destruct src as [l|]; cbn; [|done].
  case_bool_decide; [|done]. intros [= <-] Hk.
  rewrite length_app, length_take, length_drop. lia.
Qed.

Lemma resize_init a ks rb :
  0 < ks <= INT_MAX ->
  ringbuf_init a (to_size ks) (ringbuf_free rb)
  = match kmalloc a ks with
    | Some l => (Ringbuf (Some l) ks 0 0 0 true true, 0)
    | None => (ringbuf_free rb, - ENOMEM)
    end.
Proof.
  intros Hks. pose proof INT_MAX_lt_modulus.
  rewrite ringbuf_free_eq, to_size_small by lia.
  unfold ringbuf_init. destruct (Z.eqb_spec ks 0); [lia|].
  cbn. now destruct (kmalloc a ks).
Qed.

Lemma wf_fresh l ks :
  0 < ks <= INT_MAX -> length l = Z.to_nat ks ->
  wf (Ringbuf (Some l) ks 0 0 0 true true).
Proof.
  intros Hks Hl. split; [exists l; cbn; split; [done|lia]|]. cbn.
  rewrite Z.mod_0_l by lia. lia.
Qed.

Lemma to_int_pos z : (to_int z <=? 0) = false -> 0 < to_int z <= INT_MAX.
Proof. intros H. apply Z.leb_gt in H. pose proof (to_int_range z). lia. Qed.

(** The three request codes are [unsigned int] values. *)
Lemma ioctl_set_size e arg rb :
  ringbuf_ioctl e SET_SIZE_OF_QUEUE arg rb = set_size_case e arg rb.
Proof. reflexivity. Qed.

Lemma ioctl_push e arg rb :
  ringbuf_ioctl e PUSH_DATA arg rb
  = ('(rb1, arg1, r, _) ← push_data_case e arg rb; Done (rb1, arg1, r)).
Proof. reflexivity. Qed.

Lemma ioctl_pop e arg rb :
  ringbuf_ioctl e POP_DATA arg rb = pop_data_case e arg rb.
Proof. reflexivity. Qed.

Lemma to_uint_small cmd : 0 <= cmd < 2 ^ 32 -> to_uint cmd = cmd.
Proof. intros H. unfold to_uint. now apply Z.mod_small. Qed.

Lemma ioctl_other e cmd arg rb :
  to_uint cmd <> SET_SIZE_OF_QUEUE -> to_uint cmd <> PUSH_DATA ->
  to_uint cmd <> POP_DATA ->
  ringbuf_ioctl e cmd arg rb = Done (rb, arg, Returned (- EINVAL)).
Proof.
  intros H1 H2 H3. unfold ringbuf_ioctl. cbv zeta.
  destruct (Z.eqb_spec (to_uint cmd) SET_SIZE_OF_QUEUE); [done|].
  destruct (Z.eqb_spec (to_uint cmd) PUSH_DATA); [done|].
  destruct (Z.eqb_spec (to_uint cmd) POP_DATA); [done|]. done.
Qed.

(** A request runs one of the three cases or the default. *)
Lemma ioctl_cases e cmd arg rb :
  ringbuf_ioctl e cmd arg rb = set_size_case e arg rb \/
  ringbuf_ioctl e cmd arg rb
    = ('(rb1, arg1, r, _) ← push_data_case e arg rb; Done (rb1, arg1, r)) \/
  ringbuf_ioctl e cmd arg rb = pop_data_case e arg rb \/
  ringbuf_ioctl e cmd arg rb = Done (rb, arg, Returned (- EINVAL)).
Proof.
  unfold ringbuf_ioctl. cbv zeta.
  destruct (to_uint cmd =? SET_SIZE_OF_QUEUE); [tauto|].
  destruct (to_uint cmd =? PUSH_DATA); [tauto|].
  destruct (to_uint cmd =? POP_DATA); tauto.
Qed.

Lemma pop_wait_inv ws : forall kbuf len rb,
  inv rb -> (forall s, Woken s ∈ ws -> inv s) ->
  0 <= len -> len <= Z.of_nat (length kbuf) ->
  exists w, pop_wait ws kbuf len rb = Done w /\ inv (pop_wait_state w).
Proof.
  induction ws as [|w ws IH]; intros kbuf len rb Hinv Hws Hlen Hk;
    cbn [pop_wait]; destruct (rb_count rb >? 0) eqn:Hc.
  - destruct (pop_locked_inv kbuf len rb) as (rb' & out' & ret & -> & H & _);
      [done..|]. eexists. split; [done|]. done.
  - destruct (rb_rq rb); eexists; (split; [done|]); done.
  - destruct (pop_locked_inv kbuf len rb) as (rb' & out' & ret & -> & H & _);
      [done..|]. eexists. split; [done|]. done.
  - destruct (rb_rq rb); cbn [negb]; [|eexists; split; [done|]; done].
    destruct w as [|s].
    + eexists. split; [done|]. done.
    + apply IH; [|intros s' Hs'|done..].
      * apply Hws. left.
      * apply Hws. now right.
Qed.

Lemma set_size_inv e arg rb :
  inv rb ->
  exists rb' r, set_size_case e arg rb = Done (rb', arg, r) /\ inv rb'.
Proof.
  intros Hinv. unfold set_size_case.
  destruct (arg_int arg) as [ks0|]; [|by eauto 10].
  destruct (to_int ks0 <=? 0) eqn:Hks; [by eauto 10|].
  apply to_int_pos in Hks. rewrite resize_init by done.
  destruct (kmalloc (env_alloc e) (to_int ks0)) as [l|] eqn:Hl.
  - eexists _, _. split; [done|]. right.
    apply wf_fresh; [done|]. now apply length_kmalloc in Hl.
  - eexists _, _. split; [done|]. left. apply idle_free.
Qed.

Lemma push_data_inv e arg rb :
  inv rb ->
  exists rb' r woke,
    push_data_case e arg rb = Done (rb', arg, r, woke) /\ inv rb'.
Proof.
  intros Hinv. pose proof INT_MAX_lt_modulus as Hmax. unfold push_data_case.
  destruct (arg_qd arg) as [ud|]; [|by eauto 10].
  destruct (to_int (qd_length ud) <=? 0) eqn:Hlen; [by eauto 10|].
  apply to_int_pos in Hlen. rewrite to_size_small by lia.
  destruct (kmalloc _ _) as [kbuf0|] eqn:Hk0; [|by eauto 10].
  destruct (copy_from_user _ _ _) as [kbuf|] eqn:Hk; [|by eauto 10].
  apply length_kmalloc in Hk0. apply length_copy_from_user in Hk; [|done].
  destruct (push_locked_inv kbuf (to_int (qd_length ud)) rb)
    as (rb' & ret & -> & H); [done|lia|lia|].
  cbn. destruct (ret >? 0); [destruct (rb_rq rb')|]; by eauto 10.
Qed.

Lemma pop_data_inv e arg rb :
  inv rb -> (forall s, Woken s ∈ env_waits e -> inv s) ->
  exists rb' arg' r, pop_data_case e arg rb = Done (rb', arg', r) /\ inv rb'.
Proof.
  intros Hinv Hws. pose proof INT_MAX_lt_modulus as Hmax. unfold pop_data_case.
  destruct (arg_qd arg) as [ud|]; [|by eauto 10].
  destruct (to_int (qd_length ud) <=? 0) eqn:Hlen; [by eauto 10|].
  apply to_int_pos in Hlen. rewrite to_size_small by lia.
  destruct (kmalloc _ _) as [kbuf0|] eqn:Hk0; [|by eauto 10].
  apply length_kmalloc in Hk0.
  destruct (pop_wait_inv (env_waits e) kbuf0 (to_int (qd_length ud)) rb)
    as (w & -> & H); [done|done|lia|lia|].
  cbn. destruct w as [rb1 kbuf ret|rb1|rb1|rb1]; cbn in H; [|by eauto 10..].
  destruct (ret >? 0); [|by eauto 10].
  destruct (copy_to_user _ _ _) as [data1 ok].
  destruct ok; cbn; [|by eauto 10].
  destruct (arg_length_writable arg); cbn; by eauto 10.
Qed.

Lemma ioctl_inv e cmd arg rb :
  inv rb -> (forall s, Woken s ∈ env_waits e -> inv s) ->
  exists rb' arg' r,
    ringbuf_ioctl e cmd arg rb = Done (rb', arg', r) /\ inv rb'.
Proof.
  intros Hinv Hws.
  destruct (ioctl_cases e cmd arg rb) as [-> | [-> | [-> | ->]]].
  - destruct (set_size_inv e arg rb Hinv) as (rb' & r & -> & H). by eauto 10.
  - destruct (push_data_inv e arg rb Hinv) as (rb' & r & woke & -> & H).
    cbn. by eauto 10.
  - now apply pop_data_inv.
  - by eauto 10.
Qed.

(* ===================================================================== *)
(** ** The wait queue and the mutex *)

Lemma push_loop_flags n : forall kdata i rb rb',
  push_loop n kdata i rb = Done rb' ->
  rb_rq rb' = rb_rq rb /\ rb_lock rb' = rb_lock rb /\
  (rb_buf rb' = None <-> rb_buf rb = None).
Proof.
  induction n as [|n IH]; intros kdata i rb rb'; cbn [push_loop].
  - now intros [= <-].
  - unfold load_at, store, store_at, deref, size_rem.
    destruct (kdata !! Z.to_nat i); [|done]. cbn.
    destruct (rb_buf rb) as [l|] eqn:Hl; [|done]. cbn.
    case_bool_decide; [|done]. cbn.
    destruct (Z.eqb_spec (rb_size rb) 0); [done|]. cbn.
    intros Hrun. apply IH in Hrun as (Hq & Hk & Hb). cbn in Hq, Hk, Hb.
    split; [done|]. split; [done|]. rewrite ?Hl.
    split; intros H0; [apply Hb in H0|]; discriminate.
Qed.

Lemma push_locked_flags kdata len rb rb' ret :
  ringbuf_push_locked kdata len rb = Done (rb', ret) ->
  rb_rq rb' = rb_rq rb /\ rb_lock rb' = rb_lock rb /\
  (rb_buf rb' = None <-> rb_buf rb = None).
Proof.
  unfold ringbuf_push_locked. destruct (len >? _); [now intros [= <- _]|].
  destruct (push_loop _ _ _ _) as [rb1|f] eqn:Hrun; [|done]. cbn.
  intros [= <- _]. now apply push_loop_flags in Hrun.
Qed.

Lemma pop_loop_flags n : forall out i rb rb' out',
  pop_loop n out i rb = Done (rb', out') ->
  rb_rq rb' = rb_rq rb /\ rb_lock rb' = rb_lock rb /\ rb_buf rb' = rb_buf rb.
Proof.
  induction n as [|n IH]; intros out i rb rb' out'; cbn [pop_loop].
  - now intros [= <- _].
  - unfold load, load_at, store_at, deref, size_rem.
    destruct (rb_buf rb) as [l|] eqn:Hl; [|done]. cbn.
    destruct (l !! Z.to_nat (rb_head rb)); [|done]. cbn.
    case_bool_decide; [|done]. cbn.
    destruct (Z.eqb_spec (rb_size rb) 0); [done|]. cbn.
    intros Hrun. apply IH in Hrun as (Hq & Hk & Hb). cbn in Hq, Hk, Hb.
    now rewrite Hb.
Qed.

Lemma pop_locked_flags out len rb rb' out' ret :
  ringbuf_pop_locked out len rb = Done (rb', out', ret) ->
  rb_rq rb' = rb_rq rb /\ rb_lock rb' = rb_lock rb /\ rb_buf rb' = rb_buf rb.
Proof.
  unfold ringbuf_pop_locked. cbv zeta.
  destruct (pop_loop _ _ _ _) as [[rb1 o1]|f] eqn:Hrun; [|done]. cbn.
  intros [= <- _ _]. now apply pop_loop_flags in Hrun.
Qed.

(** The state a run of the wait loop leaves is the state it last saw,
    or what a pop made of it. *)
Lemma pop_wait_origin ws : forall kbuf len rb w,
  pop_wait ws kbuf len rb = Done w ->
  exists s, (s = rb \/ Woken s ∈ ws) /\
    (pop_wait_state w = s \/
     exists kbuf' ret,
       ringbuf_pop_locked kbuf len s = Done (pop_wait_state w, kbuf', ret)).
Proof.
  induction ws as [|w0 ws IH]; intros kbuf len rb w; cbn [pop_wait];
    destruct (rb_count rb >? 0).
  - destruct (ringbuf_pop_locked kbuf len rb) as [[[rb1 k1] r1]|f] eqn:Hpop;
      [|done]. cbn. intros [= <-]. exists rb. split; [now left|]. by eauto.
  - destruct (rb_rq rb); cbn [negb]; intros [= <-]; exists rb;
      (split; [now left|]); now left.
  - destruct (ringbuf_pop_locked kbuf len rb) as [[[rb1 k1] r1]|f] eqn:Hpop;
      [|done]. cbn. intros [= <-]. exists rb. split; [now left|]. by eauto.
  - destruct (rb_rq rb); cbn [negb];
      [|intros [= <-]; exists rb; (split; [now left|]); now left].
    destruct w0 as [|s0].
    + intros [= <-]. exists rb. split; [now left|]. now left.
    + intros Hrun. destruct (IH _ _ _ _ Hrun) as (s & [-> | Hs] & H).
      * exists s0. split; [right; left | done].
      * exists s. split; [right; now right | done].
Qed.

Lemma synced_same rb rb' :
  rb_rq rb' = rb_rq rb -> rb_lock rb' = rb_lock rb ->
  (rb_buf rb' <> None -> rb_buf rb <> None) ->
  synced rb -> synced rb'.
Proof.
  intros Hq Hk Hb [H1 H2]. split; [congruence|].
  intros H. rewrite Hq. now apply H2, Hb.
Qed.

Lemma ioctl_synced e cmd arg rb rb' arg' r :
  synced rb -> (forall s, Woken s ∈ env_waits e -> synced s) ->
  ringbuf_ioctl e cmd arg rb = Done (rb', arg', r) -> synced rb'.
Proof.
  intros Hs Hws.
  destruct (ioctl_cases e cmd arg rb) as [-> | [-> | [-> | ->]]].
  - unfold set_size_case.
    destruct (arg_int arg) as [ks0|]; [|now intros [= <- _ _]].
    destruct (to_int ks0 <=? 0); [now intros [= <- _ _]|].
    rewrite ringbuf_free_eq. unfold ringbuf_init.
    destruct (to_size (to_int ks0) =? 0); [|cbn; destruct (kmalloc _ _); cbn];
      intros [= <- _ _]; split; cbn; try done; apply Hs.
  - unfold push_data_case.
    destruct (arg_qd arg) as [ud|]; [|now intros [= <- _ _]].
    destruct (to_int (qd_length ud) <=? 0); [now intros [= <- _ _]|].
    destruct (kmalloc _ _) as [kbuf0|]; [|now intros [= <- _ _]].
    destruct (copy_from_user _ _ _) as [kbuf|]; [|now intros [= <- _ _]].
    destruct (ringbuf_push_locked _ _ _) as [[rb1 ret]|f] eqn:Hpush; [|done].
    apply push_locked_flags in Hpush as (Hq & Hk & Hb). cbn.
    assert (Hs1 : synced rb1).
    { apply (synced_same rb); [done|done| |done].
      intros H1 H2. apply H1. now apply Hb. }
    destruct (ret >? 0); [destruct (rb_rq rb1)|]; now intros [= <- _ _].
  - unfold pop_data_case.
    destruct (arg_qd arg) as [ud|]; [|now intros [= <- _ _]].
    destruct (to_int (qd_length ud) <=? 0); [now intros [= <- _ _]|].
    destruct (kmalloc _ _) as [kbuf0|]; [|now intros [= <- _ _]].
    destruct (pop_wait _ _ _ _) as [w|f] eqn:Hrun; [|done]. cbn.
    assert (Hw : synced (pop_wait_state w)).
    { apply pop_wait_origin in Hrun as (s & Hfrom & Hto).
      assert (Hss : synced s) by (destruct Hfrom as [-> | H]; [done|now apply Hws]).
      destruct Hto as [-> | (k & ret & Hpop)]; [done|].
      apply pop_locked_flags in Hpop as (Hq & Hk & Hb).
      apply (synced_same s); [done|done| |done]. now rewrite Hb. }
    destruct w as [rb1 kbuf ret|rb1|rb1|rb1]; cbn in Hw;
      [|now intros [= <- _ _]..].
    destruct (ret >? 0); [|now intros [= <- _ _]].
    destruct (copy_to_user _ _ _) as [data1 ok].
    destruct ok; cbn; [|now intros [= <- _ _]].
    destruct (arg_length_writable arg); cbn; now intros [= <- _ _].
  - now intros [= <- _ _].
Qed.

(* ===================================================================== *)
(** ** Reachable values of [rb] *)

Lemma reachable_induction (P : ringbuf -> Prop) :
  P rb_static ->
  (forall e cmd arg rb rb' arg' r,
     P rb -> (forall s, Woken s ∈ env_waits e -> P s) ->
     ringbuf_ioctl e cmd arg rb = Done (rb', arg', r) -> P rb') ->
  forall rb, reachable rb -> P rb.
Proof.
  intros H0 Hstep. fix IH 2. intros rb [|e cmd arg rb0 rb' arg' r Hr Hw Hio].
  - exact H0.
  - apply (Hstep e cmd arg rb0 rb' arg' r); [|intros s Hs|exact Hio].
    + apply IH, Hr.
    + apply IH, (Hw s Hs).
Qed.

Lemma reachable_inv rb : reachable rb -> inv rb.
Proof.
  induction 1 as [|e cmd arg rb rb' arg' r IH Hw Hio] using reachable_induction.
  - left. apply idle_static.
  - destruct (ioctl_inv e cmd arg rb IH Hw) as (rb1 & arg1 & r1 & Hrun & H).
    rewrite Hio in Hrun. now injection Hrun as -> _ _.
Qed.

Lemma reachable_synced rb : reachable rb -> synced rb.
Proof.
  induction 1 as [|e cmd arg rb rb' arg' r IH Hw Hio] using reachable_induction.
  - split; [done | now intros []].
  - exact (ioctl_synced e cmd arg rb rb' arg' r IH Hw Hio).
Qed.

(** In a reachable state with a buffer the wait queue is initialised. *)
Lemma reachable_rq rb : reachable rb -> wf rb -> rb_rq rb = true.
Proof.
  intros Hr ((l & Hl & _) & _). apply (reachable_synced rb Hr).
  now rewrite Hl.
Qed.

Lemma inv_capacity rb : inv rb -> capacity_invariant rb.
Proof.
  intros [(Hb & Hs & Hh & Ht & Hc) | ((l & Hl & Hlen) & Hsz & Hh & Hc & Ht)].
  - split; [lia | now intros []].
  - split; [done|]. intros _. split; [done|].
    rewrite Ht. apply Z.mod_pos_bound. lia.
Qed.

(* ===================================================================== *)
(** ** The wait loop of [POP_DATA] *)

(** The loop leaves through [break] only after [ringbuf_pop_locked] ran on
    a value of [rb] with [count > 0]: the value the call started with or
    one found after a wake-up. *)
Lemma pop_wait_break_nonempty ws : forall kbuf len rb rb' kbuf' ret,
  pop_wait ws kbuf len rb = Done (PopBreak rb' kbuf' ret) ->
  exists s, (s = rb \/ Woken s ∈ ws) /\ rb_count s > 0 /\
    ringbuf_pop_locked kbuf len s = Done (rb', kbuf', ret).
Proof.
  induction ws as [|w ws IH]; intros kbuf len rb rb' kbuf' ret;
    cbn [pop_wait]; destruct (Z.gtb_spec (rb_count rb) 0) as [Hc|Hc].
  - destruct (ringbuf_pop_locked kbuf len rb) as [[[rb1 k1] r1]|f] eqn:Hpop;
      [|done]. cbn. intros [= <- <- <-]. exists rb. split; [now left|].
    split; [lia|done].
  - now destruct (rb_rq rb).
  - destruct (ringbuf_pop_locked kbuf len rb) as [[[rb1 k1] r1]|f] eqn:Hpop;
      [|done]. cbn. intros [= <- <- <-]. exists rb. split; [now left|].
    split; [lia|done].
  - destruct (rb_rq rb); cbn [negb]; [|done].
    destruct w as [|s]; [done|]. intros Hrun.
    destruct (IH _ _ _ _ _ _ Hrun) as (s' & [-> | Hs'] & Hc' & Hpop).
    + exists s. split; [right; left|]. done.
    + exists s'. split; [right; now right|]. done.
Qed.



(* ===================================================================== *)
(** ** Requests that reach the buffer *)

Lemma staged_payload (junk : nat -> byte) n (data : list byte) :
  0 <= n <= Z.of_nat (length data) ->
  copy_from_user (map junk (seq 0 (Z.to_nat n))) (Some data) n
  = Some (take (Z.to_nat n) data).
Proof.
  intros Hn. unfold copy_from_user. rewrite bool_decide_true by lia.
  rewrite drop_ge by (rewrite length_map, length_seq; lia).
  now rewrite app_nil_r.
Qed.

Lemma pop_wait_nonempty ws kbuf len rb :
  rb_count rb > 0 ->
  pop_wait ws kbuf len rb
  = ('(rb1, kbuf1, ret) ← ringbuf_pop_locked kbuf len rb;
     Done (PopBreak rb1 kbuf1 ret)).
Proof.
  intros Hc. destruct ws; cbn [pop_wait];
    now destruct (Z.gtb_spec (rb_count rb) 0); [|lia].
Qed.

(** The handler's [POP_DATA] case on a buffer that holds data. *)
Lemma ioctl_pop_nonempty e arg rb ud junk :
  wf rb -> rb_count rb > 0 ->
  arg_qd arg = Some ud -> env_alloc e = Some junk ->
  0 < to_int (qd_length ud) ->
  let m := Z.min (to_int (qd_length ud)) (rb_count rb) in
  let rb' := Ringbuf (rb_buf rb) (rb_size rb)
               ((rb_head rb + m) mod rb_size rb) (rb_tail rb)
               (rb_count rb - m) (rb_rq rb) (rb_lock rb) in
  let kbuf := take (Z.to_nat m) (contents rb)
              ++ drop (Z.to_nat m)
                   (map junk (seq 0 (Z.to_nat (to_int (qd_length ud))))) in
  let data1 := (copy_to_user (qd_data ud) kbuf m).1 in
  let arg1 := UserArg (arg_int arg) (Some (QueueData (qd_length ud) data1))
                (arg_length_writable arg) in
  wf rb' /\ contents rb' = drop (Z.to_nat m) (contents rb) /\ 0 < m /\
  ringbuf_ioctl e POP_DATA arg rb
  = if negb (copy_to_user (qd_data ud) kbuf m).2
    then Done (rb', arg1, Returned (- EFAULT))
    else if negb (arg_length_writable arg)
    then Done (rb', arg1, Returned (- EFAULT))
    else Done (rb', UserArg (Some m) (Some (QueueData m data1))
                      (arg_length_writable arg), Returned m).
Proof.
  intros Hwf Hc Hq Ha Hlen m rb' kbuf data1 arg1.
  pose proof (to_int_range (qd_length ud)) as Hr.
  pose proof INT_MAX_lt_modulus as Hmax.
  pose proof Hwf as (_ & Hsz & _ & Hcr & _).
  destruct (pop_locked_ok
              (map junk (seq 0 (Z.to_nat (to_int (qd_length ud)))))
              (to_int (qd_length ud)) rb Hwf)
    as (Hpop & Hwf' & Hcont); [lia | rewrite length_map, length_seq; lia |].
  cbn zeta in Hpop, Hwf', Hcont. fold m in Hpop, Hwf', Hcont.
  fold rb' in Hpop, Hwf', Hcont. fold kbuf in Hpop.
  assert (Hm : - 2 ^ 31 <= m <= INT_MAX) by (unfold INT_MAX in *; lia).
  split; [done|]. split; [done|]. split; [lia|].
  rewrite ioctl_pop. unfold pop_data_case. rewrite Hq.
  destruct (Z.leb_spec (to_int (qd_length ud)) 0); [lia|].
  rewrite to_size_small by lia. rewrite Ha. cbn [kmalloc].
  rewrite pop_wait_nonempty by done. rewrite Hpop. cbn.
  destruct (Z.gtb_spec m 0); [|lia].
  fold data1.
  destruct (copy_to_user (qd_data ud) kbuf m) as [d ok] eqn:Hcopy.
  subst data1 arg1. cbn.
  rewrite to_int_small by exact Hm. done.
Qed.

(** The handler's [PUSH_DATA] case when the payload is readable and fits. *)
Lemma ioctl_push_fits e arg rb ud data junk :
  wf rb -> rb_rq rb = true ->
  arg_qd arg = Some ud -> qd_data ud = Some data ->
  env_alloc e = Some junk ->
  0 < to_int (qd_length ud) <= Z.of_nat (length data) ->
  to_int (qd_length ud) <= rb_size rb - rb_count rb ->
  exists rb',
    ringbuf_ioctl e PUSH_DATA arg rb
      = Done (rb', arg, Returned (to_int (qd_length ud))) /\
    wf rb' /\
    rb_count rb' = rb_count rb + to_int (qd_length ud) /\
    contents rb'
      = contents rb ++ take (Z.to_nat (to_int (qd_length ud))) data.
Proof.
  intros Hwf Hrq Hq Hd Ha Hlen Hroom.
  pose proof INT_MAX_lt_modulus as Hmax.
  pose proof (to_int_range (qd_length ud)) as Hr.
  pose proof Hwf as ((l & Hl & _) & Hsz & _ & Hc & _).
  rewrite ioctl_push. unfold push_data_case. rewrite Hq.
  destruct (Z.leb_spec (to_int (qd_length ud)) 0); [lia|].
  rewrite to_size_small by lia. rewrite Ha, Hd. cbn [kmalloc].
  rewrite staged_payload by lia.
  destruct (push_locked_ok (take (Z.to_nat (to_int (qd_length ud))) data)
              (to_int (qd_length ud)) rb l)
    as (l' & -> & Hwf' & Hcont & _);
    [done | done | lia | rewrite length_take; lia |].
  cbn. destruct (Z.gtb_spec (to_int (qd_length ud)) 0); [|lia].
  rewrite Hrq in Hwf', Hcont |- *. cbn.
  eexists. split; [done|]. split; [exact Hwf'|]. split; [done|].
  now rewrite Hcont, take_take, Nat.min_id.
Qed.

(** A caller woken on an empty buffer goes round the loop: the request
    goes on as one made on the state found after the wake-up, with the
    events that are left. *)
Lemma ioctl_pop_woken e arg rb ud junk s ws :
  arg_qd arg = Some ud -> 0 < to_int (qd_length ud) ->
  env_alloc e = Some junk ->
  rb_count rb <= 0 -> rb_rq rb = true ->
  env_waits e = Woken s :: ws ->
  ringbuf_ioctl e POP_DATA arg rb
  = ringbuf_ioctl (Env (env_alloc e) ws) POP_DATA arg s.
Proof.
  intros Hq Hlen Ha Hc Hrq Hws. rewrite !ioctl_pop. unfold pop_data_case.
  rewrite Hq. destruct (Z.leb_spec (to_int (qd_length ud)) 0); [lia|].
  cbn [env_alloc env_waits]. rewrite Ha. cbn [kmalloc].
  rewrite Hws. cbn [pop_wait].
  destruct (Z.gtb_spec (rb_count rb) 0); [lia|]. now rewrite Hrq.
Qed.

Lemma ioctl_pop_stale e arg ud junk stale : forall rb ws,
  arg_qd arg = Some ud -> 0 < to_int (qd_length ud) ->
  env_alloc e = Some junk ->
  rb_count rb <= 0 -> rb_rq rb = true ->
  Forall (fun s => rb_count s <= 0 /\ rb_rq s = true) stale ->
  ringbuf_ioctl (Env (env_alloc e) (map Woken stale ++ ws)) POP_DATA arg rb
  = ringbuf_ioctl (Env (env_alloc e) ws) POP_DATA arg
      (default rb (last stale)) /\
  rb_count (default rb (last stale)) <= 0 /\
  rb_rq (default rb (last stale)) = true.
Proof.
  induction stale as [|s stale IH]; intros rb ws Hq Hlen Ha Hc Hrq Hs;
    [done|].
  apply Forall_cons in Hs as [[Hs1 Hs2] Hs3].
  rewrite (ioctl_pop_woken _ arg rb ud junk s (map Woken stale ++ ws))
    by done.
  rewrite last_cons. cbn [env_alloc].
  destruct (IH s ws Hq Hlen Ha Hs1 Hs2 Hs3) as (Hrun & Hlast).
  rewrite Hrun. now destruct (last stale).
Qed.

(** With nothing to pop, an initialised wait queue and no event left, the
    caller stays asleep. *)
Lemma ioctl_pop_sleeps e arg rb ud junk :
  arg_qd arg = Some ud -> 0 < to_int (qd_length ud) ->
  env_alloc e = Some junk ->
  rb_count rb <= 0 -> rb_rq rb = true -> env_waits e = [] ->
  ringbuf_ioctl e POP_DATA arg rb = Done (rb, arg, Blocked).
Proof.
  intros Hq Hlen Ha Hc Hrq Hws. rewrite ioctl_pop. unfold pop_data_case.
  rewrite Hq. destruct (Z.leb_spec (to_int (qd_length ud)) 0); [lia|].
  rewrite Ha, Hws. cbn [kmalloc pop_wait].
  destruct (Z.gtb_spec (rb_count rb) 0); [lia|]. now rewrite Hrq.
Qed.

(** A signal ends the sleep with [-ERESTARTSYS]. *)
Lemma ioctl_pop_signal e arg rb ud junk ws :
  arg_qd arg = Some ud -> 0 < to_int (qd_length ud) ->
  env_alloc e = Some junk ->
  rb_count rb <= 0 -> rb_rq rb = true -> env_waits e = Interrupted :: ws ->
  ringbuf_ioctl e POP_DATA arg rb = Done (rb, arg, Returned (- ERESTARTSYS)).
Proof.
  intros Hq Hlen Ha Hc Hrq Hws. rewrite ioctl_pop. unfold pop_data_case.
  rewrite Hq. destruct (Z.leb_spec (to_int (qd_length ud)) 0); [lia|].
  rewrite Ha, Hws. cbn [kmalloc pop_wait].
  destruct (Z.gtb_spec (rb_count rb) 0); [lia|]. now rewrite Hrq.
Qed.

(** The [PUSH_DATA] case calls [wake_up_interruptible] exactly when it
    stored bytes. *)
Lemma push_data_wakes e arg rb :
  reachable rb ->
  exists rb1 r woke,
    push_data_case e arg rb = Done (rb1, arg, r, woke) /\
    (woke = true <-> exists n, r = Returned n /\ 0 < n) /\
    (woke = true -> rb_count rb < rb_count rb1) /\
    (woke = false -> rb1 = rb).
Proof.
  intros Hr. apply reachable_inv in Hr as Hinv.
  pose proof INT_MAX_lt_modulus as Hmax.
  assert (Herr : forall v, v < 0 ->
            exists rb1 r woke,
              Done (rb, arg, Returned v, false) = Done (rb1, arg, r, woke) /\
              (woke = true <-> exists n, r = Returned n /\ 0 < n) /\
              (woke = true -> rb_count rb < rb_count rb1) /\
              (woke = false -> rb1 = rb)).
  { intros v Hv. exists rb, (Returned v), false. split; [done|].
    split; [split; [done | intros (n & [= <-] & Hn); lia]|]. done. }
  unfold push_data_case.
  destruct (arg_qd arg) as [ud|]; [|now apply Herr].
  destruct (to_int (qd_length ud) <=? 0) eqn:Hlen; [now apply Herr|].
  apply to_int_pos in Hlen. rewrite to_size_small by lia.
  destruct (kmalloc _ _) as [kbuf0|] eqn:Hk0; [|now apply Herr].
  apply length_kmalloc in Hk0.
  destruct (copy_from_user _ _ _) as [kbuf|] eqn:Hcopy; [|now apply Herr].
  apply length_copy_from_user in Hcopy; [|done].
  set (n := to_int (qd_length ud)) in *.
  assert (Hnospace : n > size_sub (rb_size rb) (rb_count rb) ->
            exists rb1 r woke,
              ('(rb1, ret) ← ringbuf_push_locked kbuf n rb;
               if ret >? 0
               then if rb_rq rb1 then Done (rb1, arg, Returned ret, true)
                    else Done (rb1, arg, Oops, true)
               else Done (rb1, arg, Returned ret, false))
              = Done (rb1, arg, r, woke) /\
              (woke = true <-> exists n, r = Returned n /\ 0 < n) /\
              (woke = true -> rb_count rb < rb_count rb1) /\
              (woke = false -> rb1 = rb)).
  { intros Hn. rewrite push_locked_nospace by done. cbn. now apply Herr. }
  destruct Hinv as [(_ & Hs & _ & _ & Hc) | Hwf].
  - apply Hnospace. rewrite Hs, Hc. change (size_sub 0 0) with 0. lia.
  - pose proof Hwf as ((l & Hl & _) & Hsz & _ & Hc & _).
    pose proof (reachable_rq rb Hr Hwf) as Hrq.
    destruct (Z.le_gt_cases n (rb_size rb - rb_count rb)) as [Hroom|Hfull].
    + destruct (push_locked_ok kbuf n rb l) as (l' & -> & _);
        [done | done | lia | lia |].
      cbn. destruct (Z.gtb_spec n 0); [|lia]. rewrite Hrq.
      eexists _, _, true. split; [done|]. cbn.
      split; [split; [eauto | done]|]. split; [lia | done].
    + apply Hnospace. unfold size_sub. rewrite to_size_small; lia.
Qed.

(* ===================================================================== *)
(** ** Queue behaviour *)

Lemma contents_empty rb : rb_count rb = 0 -> contents rb = [].
Proof. unfold contents. intros ->. now destruct (rb_buf rb). Qed.

Lemma wf_buf rb : wf rb -> exists l, rb_buf rb = Some l.
Proof. intros ((l & Hl & _) & _). eauto. Qed.

Ltac concrete_wf :=
  split; [eexists; split; reflexivity|];
  unfold ring4, INT_MAX; cbn [rb_size rb_head rb_tail rb_count];
  repeat split; lia.

Lemma wf_ring4_empty3 : wf (ring4 3 3 0).
Proof. concrete_wf. Defined.

Lemma wf_ring4_one : wf (ring4 2 3 1).
Proof. concrete_wf. Defined.

Lemma wf_abc : wf (Ringbuf (Some ["a"; "b"; "c"; x00]%byte) 4 0 3 3 true true).
Proof. concrete_wf. Defined.

(** X4 (first in, first out). After a push that fits, popping everything
    returns the bytes that were queued followed by the bytes pushed. *)
Lemma push_then_pop_all (rb : ringbuf) (X out : list byte) :
  wf rb ->
  Z.of_nat (length X) <= rb_size rb - rb_count rb ->
  rb_count rb + Z.of_nat (length X) <= Z.of_nat (length out) ->
  exists rb1 rb2,
    ringbuf_push_locked X (Z.of_nat (length X)) rb
      = Done (rb1, Z.of_nat (length X)) /\
    ringbuf_pop_locked out (rb_count rb + Z.of_nat (length X)) rb1
      = Done (rb2,
              (contents rb ++ X)
                ++ drop (Z.to_nat (rb_count rb + Z.of_nat (length X))) out,
              rb_count rb + Z.of_nat (length X)).
Proof.
  intros Hwf Hfit Hout. set (len := Z.of_nat (length X)) in *.
  destruct (wf_buf rb Hwf) as [l Hl].
  pose proof Hwf as (_ & _ & _ & Hc & _).
  destruct (push_locked_ok X len rb l) as (l' & Hpush & Hwf1 & Hcont & _);
    [done | done | lia | lia |].
  cbn zeta in *. set (rb1 := Ringbuf _ _ _ _ _ _ _) in *.
  assert (Hc1 : rb_count rb1 = rb_count rb + len) by done.
  destruct (pop_locked_ok out (rb_count rb + len) rb1 Hwf1) as (Hpop & _ & _);
    [lia | lia |].
  cbn zeta in Hpop. rewrite Hc1, Z.min_id in Hpop.
  assert (Hn : Z.to_nat len = length X) by (unfold len; lia).
  rewrite Hcont, Hn, firstn_all in Hpop.
  rewrite take_ge in Hpop.
  2:{ rewrite length_app. unfold contents. rewrite Hl, length_ring_slice. lia. }
  eexists _, _. split; [exact Hpush | exact Hpop].
Qed.

(** The fifth scenario of the specification, on the two queue operations:
    capacity 4, push "abc", pop 2, push "def" (the write wraps and [tail]
    ends at 2), pop 4. *)
Example wraparound_scenario :
  ('(rb1, r1) ← ringbuf_push_locked ["a"; "b"; "c"]%byte 3 (ring4 0 0 0);
   '(rb2, o2, r2) ← ringbuf_pop_locked [x00; x00] 2 rb1;
   '(rb3, r3) ← ringbuf_push_locked ["d"; "e"; "f"]%byte 3 rb2;
   '(rb4, o4, r4) ← ringbuf_pop_locked [x00; x00; x00; x00] 4 rb3;
   Done (r1, (o2, r2), (rb_tail rb3, r3), (o4, r4)))
  = Done (3, (["a"; "b"]%byte, 2), (2, 3), (["c"; "d"; "e"; "f"]%byte, 4)).
Proof. reflexivity. Qed.

(** The same scenario through the handler, from module load. *)
Example wraparound_scenario_ioctl :
  ('(rb0, _, r0) ← ringbuf_ioctl env_zero SET_SIZE_OF_QUEUE (arg_set_size 4)
                     rb_static;
   '(rb1, _, r1) ← ringbuf_ioctl env_zero PUSH_DATA
                     (arg_queue 3 ["a"; "b"; "c"]%byte) rb0;
   '(rb2, a2, r2) ← ringbuf_ioctl env_zero POP_DATA
                     (arg_queue 2 [x00; x00]) rb1;
   '(rb3, _, r3) ← ringbuf_ioctl env_zero PUSH_DATA
                     (arg_queue 3 ["d"; "e"; "f"]%byte) rb2;
   '(rb4, a4, r4) ← ringbuf_ioctl env_zero POP_DATA
                     (arg_queue 4 [x00; x00; x00; x00]) rb3;
   Done (r0, r1, (arg_qd a2, r2), r3, (arg_qd a4, r4), rb_count rb4))
  = Done (Returned 0, Returned 3,
          (Some (QueueData 2 (Some ["a"; "b"]%byte)), Returned 2),
          Returned 3,
          (Some (QueueData 4 (Some ["c"; "d"; "e"; "f"]%byte)), Returned 4),
          0).
Proof. reflexivity. Qed.

(** The first three scenarios of the specification. *)
Example scenario_push_pop :
  ('(rb0, _, _) ← ringbuf_ioctl env_zero SET_SIZE_OF_QUEUE (arg_set_size 10)
                    rb_static;
   '(rb1, _, r1) ← ringbuf_ioctl env_zero PUSH_DATA
                     (arg_queue 5 ["a"; "b"; "c"; "d"; "e"]%byte) rb0;
   '(rb2, a2, r2) ← ringbuf_ioctl env_zero POP_DATA
                     (arg_queue 5 [x00; x00; x00; x00; x00]) rb1;
   Done (r1, arg_qd a2, r2))
  = Done (Returned 5,
          Some (QueueData 5 (Some ["a"; "b"; "c"; "d"; "e"]%byte)),
          Returned 5).
Proof. reflexivity. Qed.

Example scenario_too_long :
  ('(rb0, _, _) ← ringbuf_ioctl env_zero SET_SIZE_OF_QUEUE (arg_set_size 5)
                    rb_static;
   '(rb1, _, r1) ← ringbuf_ioctl env_zero PUSH_DATA
                     (arg_queue 6 ["a"; "b"; "c"; "d"; "e"; "f"]%byte) rb0;
   Done (r1, rb_count rb1))
  = Done (Returned (- ENOSPC), 0).
Proof. reflexivity. Qed.

Example scenario_full :
  ('(rb0, _, _) ← ringbuf_ioctl env_zero SET_SIZE_OF_QUEUE (arg_set_size 4)
                    rb_static;
   '(rb1, _, r1) ← ringbuf_ioctl env_zero PUSH_DATA
                     (arg_queue 2 ["a"; "b"]%byte) rb0;
   '(rb2, _, r2) ← ringbuf_ioctl env_zero PUSH_DATA
                     (arg_queue 2 ["c"; "d"]%byte) rb1;
   '(rb3, _, r3) ← ringbuf_ioctl env_zero PUSH_DATA
                     (arg_queue 1 ["e"]%byte) rb2;
   Done (r1, r2, r3, rb_count rb3))
  = Done (Returned 2, Returned 2, Returned (- ENOSPC), 4).
Proof. reflexivity. Qed.

(** The fourth scenario, for the caller that pops: it finds the buffer
    empty and sleeps; woken, it finds the byte another caller pushed. *)
Example scenario_blocked_then_woken :
  let pushed := Ringbuf (Some ["x"; x00; x00; x00]%byte) 4 0 1 1 true true in
  (returned (ringbuf_ioctl env_zero POP_DATA (arg_queue 1 [x00]) (ring4 0 0 0)),
   '(_, a, r) ← ringbuf_ioctl (Env (Some (fun _ => x00)) [Woken pushed])
                  POP_DATA (arg_queue 1 [x00]) (ring4 0 0 0);
   Done (arg_qd a, r))
  = (None, Done (Some (QueueData 1 (Some ["x"]%byte)), Returned 1)).
Proof. reflexivity. Qed.

(* ===================================================================== *)
(** ** The claims of the specification *)

(** C1 (round trip). On an empty buffer, wherever its [head] and [tail]
    stand, pushing a byte sequence [X] no longer than the capacity succeeds
    and returns [len(X)], and popping [len(X)] bytes right after returns
    exactly the bytes of [X], in the order pushed, at the start of the
    caller's block, and leaves the buffer empty. The write wraps around the
    end of storage whenever [tail + len(X)] exceeds the capacity. *)
Theorem push_pop_round_trip (rb : ringbuf) (X out : list byte) :
  wf rb -> rb_count rb = 0 ->
  Z.of_nat (length X) <= rb_size rb ->
  (length X <= length out)%nat ->
  exists rb1 rb2,
    ringbuf_push_locked X (Z.of_nat (length X)) rb
      = Done (rb1, Z.of_nat (length X)) /\
    ringbuf_pop_locked out (Z.of_nat (length X)) rb1
      = Done (rb2, X ++ drop (length X) out, Z.of_nat (length X)) /\
    rb_count rb2 = 0.
Proof.
  intros Hwf Hc Hfit Hout. set (len := Z.of_nat (length X)).
  destruct (wf_buf rb Hwf) as [l Hl].
  destruct (push_locked_ok X len rb l) as (l' & Hpush & Hwf1 & Hcont & _);
    [done | done | lia | lia |].
  cbn zeta in *. set (rb1 := Ringbuf _ _ _ _ _ _ _) in *.
  assert (Hc1 : rb_count rb1 = len) by (cbn; lia).
  destruct (pop_locked_ok out len rb1 Hwf1) as (Hpop & _ & _);
    [lia | lia |].
  cbn zeta in Hpop. rewrite Hc1, Z.min_id in Hpop.
  rewrite Hcont, (contents_empty rb Hc) in Hpop. cbn [app] in Hpop.
  assert (Hn : Z.to_nat len = length X) by (unfold len; lia).
  rewrite Hn, !firstn_all in Hpop.
  eexists _, _. split; [exact Hpush|]. split; [exact Hpop|]. cbn. lia.
Qed.

(** An instance where the write wraps: capacity 4, [head = tail = 3]. *)
Lemma push_pop_round_trip_witness :
  wf (ring4 3 3 0) /\ rb_count (ring4 3 3 0) = 0 /\
  Z.of_nat (length ["a"; "b"; "c"]%byte) <= rb_size (ring4 3 3 0) /\
  (length ["a"; "b"; "c"]%byte <= length [x00; x00; x00])%nat /\
  exists rb1 rb2,
    ringbuf_push_locked ["a"; "b"; "c"]%byte 3 (ring4 3 3 0) = Done (rb1, 3) /\
    ringbuf_pop_locked [x00; x00; x00] 3 rb1
      = Done (rb2, ["a"; "b"; "c"]%byte, 3) /\
    rb_count rb2 = 0.
Proof.
  split; [exact wf_ring4_empty3|]. split; [reflexivity|].
  split; [cbn; lia|]. split; [cbn; lia|].
  apply (push_pop_round_trip (ring4 3 3 0) ["a"; "b"; "c"]%byte [x00; x00; x00]).
  - exact wf_ring4_empty3.
  - reflexivity.
  - cbn. lia.
  - cbn. lia.
Defined.

(** C2 (push is all or nothing). On a consistent buffer with storage [l],
    for a length [len] and a source block holding at least [len] bytes:
    the push returns [-ENOSPC] exactly when [len > size - count], and then
    [rb] is unchanged; otherwise it returns [len], leaves [size] and [head]
    alone, sets [tail] to [(tail + len) mod size] and [count] to
    [count + len], and the storage differs from [l] exactly at the [len]
    slots from [tail] on (wrapping), which hold the source bytes in order. *)
Theorem push_all_or_nothing (rb : ringbuf) (kdata l : list byte) (len : Z) :
  wf rb -> rb_buf rb = Some l ->
  0 <= len < size_modulus -> len <= Z.of_nat (length kdata) ->
  exists rb' ret,
    ringbuf_push_locked kdata len rb = Done (rb', ret) /\
    (ret = - ENOSPC <-> len > rb_size rb - rb_count rb) /\
    (len > rb_size rb - rb_count rb -> rb' = rb) /\
    (len <= rb_size rb - rb_count rb ->
     ret = len /\
     rb_size rb' = rb_size rb /\
     rb_head rb' = rb_head rb /\
     rb_tail rb' = (rb_tail rb + len) mod rb_size rb /\
     rb_count rb' = rb_count rb + len /\
     exists l',
       rb_buf rb' = Some l' /\ length l' = length l /\
       (forall k, 0 <= k < len ->
          l' !! slot (rb_size rb) (rb_tail rb) k = kdata !! Z.to_nat k) /\
       (forall j,
          (forall k, 0 <= k < len -> j <> slot (rb_size rb) (rb_tail rb) k) ->
          l' !! j = l !! j)).
Proof.
  intros Hwf Hl Hlen Hk.
  pose proof Hwf as (_ & Hsz & _ & Hc & _). pose proof INT_MAX_lt_modulus.
  destruct (Z.le_gt_cases len (rb_size rb - rb_count rb)) as [Hfit | Hfull].
  - destruct (push_locked_ok kdata len rb l)
      as (l' & Hrun & _ & _ & Hlen' & Hnew & Hold); [done | done | lia | done |].
    eexists _, _. split; [exact Hrun|]. unfold ENOSPC.
    split; [lia|]. split; [lia|]. intros _. cbn.
    repeat (split; [done|]). eauto.
  - exists rb, (- ENOSPC). split; [|split; [|split]]; [|lia|done|lia].
    apply push_locked_nospace. unfold size_sub. rewrite to_size_small; lia.
Qed.

(** An instance that fits and wraps (one byte queued, three pushed). *)
Lemma push_all_or_nothing_witness :
  wf (ring4 2 3 1) /\ rb_buf (ring4 2 3 1) = Some [x00; x00; x00; x00] /\
  0 <= 3 < size_modulus /\ 3 <= Z.of_nat (length ["d"; "e"; "f"]%byte) /\
  exists rb' ret,
    ringbuf_push_locked ["d"; "e"; "f"]%byte 3 (ring4 2 3 1) = Done (rb', ret) /\
    (ret = - ENOSPC <-> 3 > rb_size (ring4 2 3 1) - rb_count (ring4 2 3 1)).
Proof.
  assert (Hm : 0 <= 3 < size_modulus) by (unfold size_modulus, SIZE_WIDTH; lia).
  assert (Hk : 3 <= Z.of_nat (length ["d"; "e"; "f"]%byte)) by (cbn; lia).
  split; [exact wf_ring4_one|]. split; [reflexivity|].
  split; [exact Hm|]. split; [exact Hk|].
  destruct (push_all_or_nothing (ring4 2 3 1) ["d"; "e"; "f"]%byte
              [x00; x00; x00; x00] 3 wf_ring4_one eq_refl Hm Hk)
    as (rb' & ret & Hrun & Hiff & _).
  exists rb', ret. split; [exact Hrun | exact Hiff].
Defined.

(** C3 (pop). In every state the handler can reach (no buffer, or a
    consistent one), for every [len] and every destination block with room
    for [n = min(len, count)] bytes: the pop returns [n]; byte [k < n] of
    the block is the byte the storage holds at index [(head + k) mod size];
    the rest of the block is untouched; [head] becomes [(head + n) mod size]
    and [count] becomes [count - n]; [tail], [size] and the storage are
    unchanged. With [count = 0] it returns 0 and changes nothing. The
    function always returns: it has no way to wait. *)
Theorem pop_returns_min (rb : ringbuf) (out : list byte) (len : Z) :
  inv rb -> 0 <= len < size_modulus ->
  Z.min len (rb_count rb) <= Z.of_nat (length out) ->
  exists rb' out',
    ringbuf_pop_locked out len rb = Done (rb', out', Z.min len (rb_count rb)) /\
    length out' = length out /\
    (forall k : nat, Z.of_nat k < Z.min len (rb_count rb) ->
       exists l b,
         rb_buf rb = Some l /\
         l !! Z.to_nat ((rb_head rb + Z.of_nat k) mod rb_size rb) = Some b /\
         out' !! k = Some b) /\
    (forall k : nat, Z.min len (rb_count rb) <= Z.of_nat k ->
       out' !! k = out !! k) /\
    rb_head rb' = (rb_head rb + Z.min len (rb_count rb)) mod rb_size rb /\
    rb_count rb' = rb_count rb - Z.min len (rb_count rb) /\
    rb_tail rb' = rb_tail rb /\ rb_size rb' = rb_size rb /\
    rb_buf rb' = rb_buf rb /\
    (rb_count rb = 0 -> rb' = rb /\ out' = out).
Proof.
  intros [Hidle | Hwf] Hlen Hout.
  - exists rb, out. pose proof Hidle as (Hb & Hs & Hh & Ht & Hc).
    rewrite Hc in *. replace (Z.min len 0) with 0 by lia.
    split; [apply pop_locked_idle; [done|lia]|]. split; [done|].
    split; [intros; lia|]. split; [done|].
    rewrite Hh, Hs. done.
  - destruct (pop_locked_ok out len rb Hwf) as (Hrun & Hwf' & Hcont); [lia|lia|].
    cbn zeta in *. set (n := Z.min len (rb_count rb)) in *.
    pose proof Hwf as ((l & Hl & Hlenl) & Hsz & Hh & Hc & Ht).
    assert (Hlc : length (contents rb) = Z.to_nat (rb_count rb)).
    { unfold contents. rewrite Hl. apply length_ring_slice. }
    assert (Hlt : length (take (Z.to_nat n) (contents rb)) = Z.to_nat n).
    { rewrite length_take. lia. }
    eexists _, _. split; [exact Hrun|]. cbn.
    split; [rewrite length_app, length_drop; lia|].
    split; [|split].
    + intros k Hk. rewrite lookup_app_l, lookup_take_lt by lia.
      unfold contents. rewrite Hl, lookup_ring_slice by lia.
      pose proof (Z.mod_pos_bound (rb_head rb + Z.of_nat k) (rb_size rb)
                    ltac:(lia)).
      destruct (lookup_lt_is_Some_2 l
                  (slot (rb_size rb) (rb_head rb) (Z.of_nat k)))
        as [b Hb]; [unfold slot; lia|].
      exists l, b. split; [done|]. split; [exact Hb|]. f_equal.
      now apply list_lookup_total_correct.
    + intros k Hk. rewrite lookup_app_r by lia.
      rewrite lookup_drop. f_equal. lia.
    + repeat (split; [done|]). intros Hc0.
      assert (n = 0) as -> by lia.
      rewrite Z.add_0_r, Z.sub_0_r, Z.mod_small by done.
      destruct rb; split; [done|]. cbn. now rewrite drop_0.
Qed.

(** An instance that asks for more than is stored: "abc" queued, four
    bytes requested, three returned, the first of them the byte at [head]. *)
Lemma pop_returns_min_witness :
  let rb := Ringbuf (Some ["a"; "b"; "c"; x00]%byte) 4 0 3 3 true true in
  inv rb /\ 0 <= 4 < size_modulus /\
  Z.min 4 (rb_count rb) <= Z.of_nat (length [x01; x01; x01; x01]) /\
  exists rb' out',
    ringbuf_pop_locked [x01; x01; x01; x01] 4 rb = Done (rb', out', 3) /\
    out' !! 0%nat = Some "a"%byte /\
    rb_count rb' = 0.
Proof.
  intros rb.
  assert (Hi : inv rb) by (right; exact wf_abc).
  assert (Hm : 0 <= 4 < size_modulus) by (unfold size_modulus, SIZE_WIDTH; lia).
  assert (Ho : Z.min 4 (rb_count rb)
               <= Z.of_nat (length [x01; x01; x01; x01])) by (cbn; lia).
  split; [exact Hi|]. split; [exact Hm|]. split; [exact Ho|].
  destruct (pop_returns_min rb [x01; x01; x01; x01] 4 Hi Hm Ho)
    as (rb' & out' & Hrun & _ & Hbytes & _ & _ & Hc & _).
  exists rb', out'. split; [exact Hrun|]. split; [|exact Hc].
  destruct (Hbytes 0%nat) as (l & b & Hl & Hb & Hout); [cbn; lia|].
  injection Hl as <-. injection Hb as <-. exact Hout.
Defined.

(** C4 (capacity invariant). In every value [rb] can take, starting from
    module load and through any sequence of requests (resize, push, pop,
    with any arguments, allocation outcomes and wake-ups),
    [0 <= count <= size], and whenever storage is allocated
    [0 <= head < size] and [0 <= tail < size]. Every further request made
    in such a state ends (it returns, or its caller stays asleep, or it
    stops in a wait-queue call on a wait queue never initialised) without
    a division by zero or an access outside the storage, and leaves a
    state in which the same bounds hold. *)
Theorem capacity_invariant_reachable (rb : ringbuf) :
  reachable rb ->
  capacity_invariant rb /\
  forall e cmd arg,
    (forall s, Woken s ∈ env_waits e -> reachable s) ->
    exists rb' arg' r,
      ringbuf_ioctl e cmd arg rb = Done (rb', arg', r) /\
      capacity_invariant rb'.
Proof.
  intros Hr. split; [apply inv_capacity, reachable_inv, Hr|].
  intros e cmd arg Hw.
  destruct (ioctl_inv e cmd arg rb) as (rb' & arg' & r & Hrun & Hinv).
  - now apply reachable_inv.
  - intros s Hs. apply reachable_inv, Hw, Hs.
  - exists rb', arg', r. split; [done|]. now apply inv_capacity.
Qed.

(** The state after [SetSize(4); Push("abc")] is reachable. *)
Lemma reachable_abc :
  reachable (Ringbuf (Some ["a"; "b"; "c"; x00]%byte) 4 0 3 3 true true).
Proof.
  apply (reach_ioctl env_zero PUSH_DATA (arg_queue 3 ["a"; "b"; "c"]%byte)
           (ring4 0 0 0) _ (arg_queue 3 ["a"; "b"; "c"]%byte) (Returned 3)).
  - apply (reach_ioctl env_zero SET_SIZE_OF_QUEUE (arg_set_size 4)
             rb_static _ (arg_set_size 4) (Returned 0)).
    + apply reach_load.
    + intros s Hs. cbn in Hs. now apply elem_of_nil in Hs.
    + reflexivity.
  - intros s Hs. cbn in Hs. now apply elem_of_nil in Hs.
  - reflexivity.
Defined.

(** The state after [SetSize(4)] is reachable. *)
Lemma reachable_ring4 : reachable (ring4 0 0 0).
Proof.
  apply (reach_ioctl env_zero SET_SIZE_OF_QUEUE (arg_set_size 4)
           rb_static _ (arg_set_size 4) (Returned 0)).
  - apply reach_load.
  - intros s Hs. cbn in Hs. now apply elem_of_nil in Hs.
  - reflexivity.
Defined.

Lemma capacity_invariant_reachable_witness :
  reachable (Ringbuf (Some ["a"; "b"; "c"; x00]%byte) 4 0 3 3 true true) /\
  capacity_invariant (Ringbuf (Some ["a"; "b"; "c"; x00]%byte) 4 0 3 3 true true).
Proof.
  split; [exact reachable_abc|].
  apply (capacity_invariant_reachable _ reachable_abc).
Defined.

(** C5 (resize). [ringbuf_free] leaves no storage and sets every data
    field to 0, whatever the buffer held. A [SET_SIZE_OF_QUEUE] request with
    a capacity [ks > 0] runs it before [ringbuf_init]; so, whatever [rb]
    held before, when the allocation succeeds the request returns 0 and
    leaves fresh storage of exactly [ks] bytes with [head = tail = count = 0]
    and [size = ks], and when the allocation fails it returns [-ENOMEM] and
    leaves what [ringbuf_free] left: no buffer at all. From that state no
    request other than a resize changes the state, and none returns
    anything but an error: a push or pop request returns a negative value
    or, for a pop, does not return (the caller sleeps, or the kernel faults
    when no resize ever initialised the wait queue). *)
Theorem resize_discards_then_creates (e : env) (arg : user_arg) (rb : ringbuf)
  (ks : Z) :
  arg_int arg = Some ks -> 0 < ks <= INT_MAX ->
  ringbuf_free rb = Ringbuf None 0 0 0 0 (rb_rq rb) (rb_lock rb) /\
  ringbuf_ioctl e SET_SIZE_OF_QUEUE arg rb
  = match env_alloc e with
    | Some junk =>
        Done (Ringbuf (Some (map junk (seq 0 (Z.to_nat ks)))) ks 0 0 0
                true true, arg, Returned 0)
    | None => Done (ringbuf_free rb, arg, Returned (- ENOMEM))
    end /\
  (forall junk : nat -> byte,
     Z.of_nat (length (map junk (seq 0 (Z.to_nat ks)))) = ks) /\
  (forall e' cmd arg',
     0 <= cmd < 2 ^ 32 -> cmd <> SET_SIZE_OF_QUEUE ->
     (forall s, Woken s ∉ env_waits e') ->
     exists arg'' r,
       ringbuf_ioctl e' cmd arg' (ringbuf_free rb)
         = Done (ringbuf_free rb, arg'', r) /\
       (forall n, r = Returned n -> n < 0) /\
       (r = Oops -> cmd = POP_DATA /\ rb_rq rb = false)).
Proof.
  intros Hks Hrange. split; [apply ringbuf_free_eq|]. split; [|split].
  - rewrite ioctl_set_size. unfold set_size_case.
    rewrite Hks, to_int_small by lia.
    destruct (Z.leb_spec ks 0); [lia|].
    rewrite resize_init by done. unfold kmalloc.
    now destruct (env_alloc e).
  - intros junk. rewrite length_map, length_seq. lia.
  - intros e' cmd arg' Hcmd Hne Hw.
    pose proof (idle_free rb) as Hidle.
    assert (Hq : rb_rq (ringbuf_free rb) = rb_rq rb)
      by now rewrite ringbuf_free_eq.
    set (nb := ringbuf_free rb) in *.
    assert (Herr : forall (a : user_arg) (v : Z), v < 0 ->
              exists arg'' r,
                Done (nb, a, Returned v) = Done (nb, arg'', r) /\
                (forall n, r = Returned n -> n < 0) /\
                (r = Oops -> cmd = POP_DATA /\ rb_rq rb = false)).
    { intros a v Hv. exists a, (Returned v). split; [done|].
      split; [now intros n [= <-] | done]. }
    destruct (Z.eq_dec cmd PUSH_DATA) as [-> | Hnp];
      [|destruct (Z.eq_dec cmd POP_DATA) as [-> | Hnq]].
    + rewrite ioctl_push. unfold push_data_case.
      destruct (arg_qd arg') as [ud|]; [|now apply Herr].
      destruct (to_int (qd_length ud) <=? 0) eqn:Hlen; [now apply Herr|].
      apply to_int_pos in Hlen.
      destruct (kmalloc _ _) as [kbuf0|]; [|now apply Herr].
      destruct (copy_from_user _ _ _) as [kbuf|]; [|now apply Herr].
      rewrite push_locked_idle; [cbn; now apply Herr | done |].
      pose proof INT_MAX_lt_modulus. rewrite to_size_small; lia.
    + rewrite ioctl_pop. unfold pop_data_case.
      destruct (arg_qd arg') as [ud|]; [|now apply Herr].
      destruct (to_int (qd_length ud) <=? 0); [now apply Herr|].
      destruct (kmalloc _ _) as [kbuf0|]; [|now apply Herr].
      assert (Hc : (rb_count nb >? 0) = false).
      { destruct Hidle as (_ & _ & _ & _ & ->). done. }
      destruct (env_waits e') as [|[|s] ws] eqn:Hws; cbn [pop_wait];
        rewrite Hc, Hq; destruct (rb_rq rb); cbn.
      * exists arg', Blocked. done.
      * exists arg', Oops. done.
      * now apply Herr.
      * exists arg', Oops. done.
      * exfalso. apply (Hw s). left.
      * exists arg', Oops. done.
    + rewrite ioctl_other by (rewrite to_uint_small; done). now apply Herr.
Qed.

(** A resize of a buffer that holds data. *)
Lemma resize_discards_then_creates_witness :
  arg_int (arg_set_size 4) = Some 4 /\ 0 < 4 <= INT_MAX /\
  ringbuf_ioctl env_zero SET_SIZE_OF_QUEUE (arg_set_size 4)
    (Ringbuf (Some ["a"; "b"; "c"; x00]%byte) 4 0 3 3 true true)
  = Done (ring4 0 0 0, arg_set_size 4, Returned 0).
Proof.
  split; [reflexivity|]. split; [unfold INT_MAX; lia|].
  apply (resize_discards_then_creates env_zero (arg_set_size 4) _ 4).
  - reflexivity.
  - unfold INT_MAX. lia.
Defined.

(** C6, as the specification states it, fails in its "only if" half: a
    caller asleep in a pop request on an empty buffer is also released by
    a signal, with no push at all. On the empty buffer of capacity 4, a
    request whose sleep a signal interrupts returns [-ERESTARTSYS]
    although no wake-up ever showed it a buffer with [count > 0]. *)
Lemma blocked_pop_unblocks_without_push :
  ~ (forall (e : env) (arg : user_arg) (ud : queue_data) (rb rb' : ringbuf)
       (arg' : user_arg) (r : Z),
       reachable rb -> rb_rq rb = true -> rb_count rb = 0 ->
       arg_qd arg = Some ud -> 0 < to_int (qd_length ud) ->
       env_alloc e <> None ->
       ringbuf_ioctl e POP_DATA arg rb = Done (rb', arg', Returned r) ->
       exists s, Woken s ∈ env_waits e /\ rb_count s > 0).
Proof.
  intros H.
  destruct (H (Env (Some (fun _ => x00)) [Interrupted]) (arg_queue 1 [x01])
              (QueueData 1 (Some [x01])) (ring4 0 0 0) (ring4 0 0 0)
              (arg_queue 1 [x01]) (- ERESTARTSYS)
              reachable_ring4 eq_refl eq_refl eq_refl eq_refl)
    as (s & Hs & _); [discriminate | reflexivity |].
  cbn in Hs. apply list_elem_of_singleton in Hs. discriminate.
Qed.

(** C6 (amended). A push request calls [wake_up_interruptible] exactly
    when it stored bytes, and then [count] has grown: a failed push wakes
    nobody and changes nothing. A pop request with a positive length and a
    scratch block, made on an empty buffer whose wait queue is
    initialised, goes to sleep, and after every wake-up tests [count > 0]
    again:
    - while every wake-up finds the buffer still empty it sleeps again,
      and it is still asleep when no event is left;
    - the first wake-up that finds [count > 0] makes it pop from the state
      found then: it returns [m = min(length, count)] bytes, the [m] oldest
      of that state's queue, or [-EFAULT] when they cannot be copied out,
      and takes them off the queue;
    - a signal that comes first makes it return [-ERESTARTSYS], the buffer
      as it was last seen;
    - it returns a byte count only after a wake-up that found
      [count > 0], never from a buffer still empty. *)
Theorem blocked_pop_wakes (e : env) (arg : user_arg) (rb : ringbuf)
  (ud : queue_data) (junk : nat -> byte) :
  reachable rb -> rb_rq rb = true -> rb_count rb = 0 ->
  arg_qd arg = Some ud -> 0 < to_int (qd_length ud) ->
  env_alloc e = Some junk ->
  (forall s, Woken s ∈ env_waits e -> reachable s /\ rb_rq s = true) ->
  let len := to_int (qd_length ud) in
  (forall e' arg' rb0,
     reachable rb0 ->
     exists rb1 r woke,
       push_data_case e' arg' rb0 = Done (rb1, arg', r, woke) /\
       ringbuf_ioctl e' PUSH_DATA arg' rb0 = Done (rb1, arg', r) /\
       (woke = true <-> exists n, r = Returned n /\ 0 < n) /\
       (woke = true -> rb_count rb0 < rb_count rb1) /\
       (woke = false -> rb1 = rb0)) /\
  (forall stale,
     env_waits e = map Woken stale ->
     Forall (fun s => rb_count s = 0) stale ->
     ringbuf_ioctl e POP_DATA arg rb
     = Done (default rb (last stale), arg, Blocked)) /\
  (forall stale s ws,
     env_waits e = map Woken stale ++ Woken s :: ws ->
     Forall (fun s => rb_count s = 0) stale -> rb_count s > 0 ->
     let m := Z.min len (rb_count s) in
     exists rb' arg' r,
       ringbuf_ioctl e POP_DATA arg rb = Done (rb', arg', Returned r) /\
       0 < m /\ (r = m \/ r = - EFAULT) /\
       rb_count rb' = rb_count s - m /\
       contents rb' = drop (Z.to_nat m) (contents s) /\
       (forall dest,
          qd_data ud = Some dest -> arg_length_writable arg = true ->
          m <= Z.of_nat (length dest) ->
          r = m /\
          arg' = UserArg (Some m)
                   (Some (QueueData m
                      (Some (take (Z.to_nat m) (contents s)
                             ++ drop (Z.to_nat m) dest))))
                   true)) /\
  (forall stale ws,
     env_waits e = map Woken stale ++ Interrupted :: ws ->
     Forall (fun s => rb_count s = 0) stale ->
     ringbuf_ioctl e POP_DATA arg rb
     = Done (default rb (last stale), arg, Returned (- ERESTARTSYS))) /\
  (forall rb' arg' r,
     ringbuf_ioctl e POP_DATA arg rb = Done (rb', arg', Returned r) ->
     0 <= r ->
     exists s,
       Woken s ∈ env_waits e /\ rb_count s > 0 /\
       r = Z.min len (rb_count s) /\ rb_count rb' = rb_count s - r).
Proof.
  intros Hr Hrq Hc Hq Hlen Ha Hw len.
  pose proof INT_MAX_lt_modulus as Hmax.
  pose proof (to_int_range (qd_length ud)) as Hrange.
  assert (He : e = Env (env_alloc e) (env_waits e)) by now destruct e.
  assert (Hst : forall stale rest,
            env_waits e = map Woken stale ++ rest ->
            Forall (fun s => rb_count s = 0) stale ->
            Forall (fun s => rb_count s <= 0 /\ rb_rq s = true) stale).
  { intros stale rest Hws Hs. apply Forall_forall. intros s Hin.
    rewrite Forall_forall in Hs. split; [rewrite (Hs s Hin); lia|].
    apply Hw. rewrite Hws. apply elem_of_app. left.
    apply list_elem_of_fmap. now exists s. }
  split; [|split; [|split; [|split]]].
  - intros e' arg' rb0 Hr0.
    destruct (push_data_wakes e' arg' rb0 Hr0) as (rb1 & r & woke & Hrun & H).
    exists rb1, r, woke. split; [exact Hrun|].
    split; [rewrite ioctl_push, Hrun; reflexivity | exact H].
  - intros stale Hws Hs.
    destruct (ioctl_pop_stale e arg ud junk stale rb [] Hq Hlen Ha)
      as (Hrun & Hlc & Hlq);
      [lia | done | apply (Hst stale []); [now rewrite app_nil_r | done] |].
    rewrite app_nil_r, <- Hws, <- He in Hrun. rewrite Hrun.
    now apply (ioctl_pop_sleeps _ arg _ ud junk).
  - intros stale s ws Hws Hs Hcs m.
    destruct (ioctl_pop_stale e arg ud junk stale rb (Woken s :: ws)
                Hq Hlen Ha)
      as (Hrun & Hlc & Hlq); [lia | done | now apply (Hst stale _ Hws) |].
    rewrite <- Hws, <- He in Hrun. rewrite Hrun.
    rewrite (ioctl_pop_woken _ arg _ ud junk s ws) by done.
    cbn [env_alloc].
    assert (Hwfs : wf s).
    { apply wf_count_pos; [|done]. apply reachable_inv, Hw.
      rewrite Hws. apply elem_of_app. right. left. }
    destruct (ioctl_pop_nonempty (Env (env_alloc e) ws) arg s ud junk
                Hwfs Hcs Hq Ha Hlen) as (_ & Hcont & Hm & Hpop).
    cbn zeta in Hcont, Hpop. fold len in Hcont, Hpop. fold m in Hcont, Hpop.
    assert (Hlcs : length (contents s) = Z.to_nat (rb_count s)).
    { destruct Hwfs as ((l & Hl & _) & _). unfold contents. rewrite Hl.
      apply length_ring_slice. }
    rewrite Hpop. unfold copy_to_user.
    destruct (qd_data ud) as [dest|]; cbn [fst snd negb].
    + case_bool_decide as Hfit; cbn [negb].
      * destruct (arg_length_writable arg) eqn:Hwr; cbn [negb].
        -- eexists _, _, _. split; [done|]. split; [done|].
           split; [now left|]. split; [done|]. split; [done|].
           intros dest' [= <-] _ _. split; [done|].
           rewrite Nat.min_l by lia.
           rewrite take_app_length' by (rewrite length_take; lia). done.
        -- eexists _, _, _. split; [done|]. split; [done|].
           split; [now right|]. split; [done|]. split; [done|].
           intros dest' _ [=].
      * eexists _, _, _. split; [done|]. split; [done|].
        split; [now right|]. split; [done|]. split; [done|].
        intros dest' [= <-] _ Hd. lia.
    + eexists _, _, _. split; [done|]. split; [done|].
      split; [now right|]. split; [done|]. split; [done|].
      intros dest' [=].
  - intros stale ws Hws Hs.
    destruct (ioctl_pop_stale e arg ud junk stale rb (Interrupted :: ws)
                Hq Hlen Ha)
      as (Hrun & Hlc & Hlq); [lia | done | now apply (Hst stale _ Hws) |].
    rewrite <- Hws, <- He in Hrun. rewrite Hrun.
    now apply (ioctl_pop_signal _ arg _ ud junk ws).
  - intros rb' arg' r Hrun Hr0.
    rewrite ioctl_pop in Hrun. unfold pop_data_case in Hrun.
    rewrite Hq in Hrun.
    destruct (Z.leb_spec (to_int (qd_length ud)) 0); [lia|].
    rewrite to_size_small, Ha in Hrun by lia. cbn [kmalloc] in Hrun.
    fold len in Hrun.
    destruct (pop_wait _ _ _ _) as [w|f] eqn:Hwait; [|done].
    cbn in Hrun.
    destruct w as [rb1 kbuf ret|rb1|rb1|rb1];
      [|injection Hrun as _ _ <-; unfold ERESTARTSYS in Hr0; lia
       |done|done].
    apply pop_wait_break_nonempty in Hwait as (s & Hs & Hcs & Hpop).
    destruct Hs as [-> | Hs]; [lia|].
    assert (Hwfs : wf s).
    { apply wf_count_pos; [|done]. now apply reachable_inv, Hw. }
    destruct (pop_locked_ok (map junk (seq 0 (Z.to_nat len))) len s Hwfs)
      as (Hpop' & _); [lia | rewrite length_map, length_seq; lia |].
    cbn zeta in Hpop'. rewrite Hpop' in Hpop. injection Hpop as <- _ <-.
    destruct (Z.gtb_spec (Z.min len (rb_count s)) 0); [|lia].
    destruct (copy_to_user _ _ _) as [d ok].
    destruct ok; cbn [negb] in Hrun;
      [|injection Hrun as _ _ <-; unfold EFAULT in Hr0; lia].
    destruct (arg_length_writable arg); cbn [negb] in Hrun;
      [|injection Hrun as _ _ <-; unfold EFAULT in Hr0; lia].
    injection Hrun as <- _ <-.
    exists s. split; [done|]. split; [done|]. split; [done|]. cbn. lia.
Qed.

(** An instance: the caller sleeps on the empty buffer of capacity 4, is
    woken once with the buffer still empty, then with "abc" queued, and
    returns the two bytes it asked for. *)
Lemma blocked_pop_wakes_witness :
  let abc := Ringbuf (Some ["a"; "b"; "c"; x00]%byte) 4 0 3 3 true true in
  let e := Env (Some (fun _ => x00)) [Woken (ring4 0 0 0); Woken abc] in
  reachable (ring4 0 0 0) /\ rb_rq (ring4 0 0 0) = true /\
  rb_count (ring4 0 0 0) = 0 /\ 0 < to_int 2 /\
  (forall s, Woken s ∈ env_waits e -> reachable s /\ rb_rq s = true) /\
  exists rb',
    ringbuf_ioctl e POP_DATA (arg_queue 2 [x01; x01]) (ring4 0 0 0)
    = Done (rb',
            UserArg (Some 2) (Some (QueueData 2 (Some ["a"; "b"]%byte))) true,
            Returned 2).
Proof.
  intros abc e.
  assert (Hl : 0 < to_int 2) by reflexivity.
  assert (Hw : forall s, Woken s ∈ env_waits e -> reachable s /\ rb_rq s = true).
  { intros s Hs. cbn in Hs.
    apply elem_of_cons in Hs as [[= ->] | Hs];
      [split; [exact reachable_ring4 | reflexivity]|].
    apply list_elem_of_singleton in Hs as [= ->].
    split; [exact reachable_abc | reflexivity]. }
  split; [exact reachable_ring4|]. split; [reflexivity|].
  split; [reflexivity|]. split; [exact Hl|]. split; [exact Hw|].
  destruct (blocked_pop_wakes e (arg_queue 2 [x01; x01]) (ring4 0 0 0)
              (QueueData 2 (Some [x01; x01])) (fun _ => x00)
              reachable_ring4 eq_refl eq_refl eq_refl Hl eq_refl Hw)
    as (_ & _ & Hdata & _).
  destruct (Hdata [ring4 0 0 0] abc [] eq_refl)
    as (rb' & arg' & r & Hrun & _ & _ & _ & _ & Hdest);
    [repeat constructor | reflexivity |].
  destruct (Hdest [x01; x01] eq_refl eq_refl) as [-> ->];
    [vm_compute; discriminate|].
  exists rb'. exact Hrun.
Defined.

(** C7, as the specification states it, fails: the request code 0 is none
    of the three codes, and the handler answers it with the very value it
    returns for a resize to capacity 0, so the two errors are not distinct. *)
Lemma unknown_opcode_not_distinct :
  ~ (returned (ringbuf_ioctl env_zero 0 (arg_set_size 4) rb_static)
     <> returned (ringbuf_ioctl env_zero SET_SIZE_OF_QUEUE (arg_set_size 0)
                    rb_static)).
Proof. intros H. apply H. reflexivity. Qed.

(** C7 (amended). A request whose code, an [unsigned int], is none of the
    three returns [-EINVAL] and changes neither the buffer nor the user
    memory; [-EINVAL] is also what a resize to a non-positive capacity
    returns. *)
Theorem unknown_opcode_EINVAL (e : env) (cmd : Z) (arg : user_arg)
  (rb : ringbuf) :
  0 <= cmd < 2 ^ 32 ->
  cmd <> SET_SIZE_OF_QUEUE -> cmd <> PUSH_DATA -> cmd <> POP_DATA ->
  ringbuf_ioctl e cmd arg rb = Done (rb, arg, Returned (- EINVAL)) /\
  forall ks, to_int ks <= 0 ->
    ringbuf_ioctl e SET_SIZE_OF_QUEUE (arg_set_size ks) rb
    = Done (rb, arg_set_size ks, Returned (- EINVAL)).
Proof.
  intros H0 H1 H2 H3. split.
  - apply ioctl_other; now rewrite to_uint_small.
  - intros ks Hks. rewrite ioctl_set_size. unfold set_size_case. cbn.
    now destruct (Z.leb_spec (to_int ks) 0); [|lia].
Qed.

Lemma unknown_opcode_EINVAL_witness :
  0 <= 0 < 2 ^ 32 /\
  0 <> SET_SIZE_OF_QUEUE /\ 0 <> PUSH_DATA /\ 0 <> POP_DATA /\
  ringbuf_ioctl env_zero 0 (arg_set_size 4) (ring4 0 0 0)
  = Done (ring4 0 0 0, arg_set_size 4, Returned (- EINVAL)).
Proof.
  assert (H0 : 0 <= 0 < 2 ^ 32) by lia.
  split; [exact H0|].
  split; [discriminate|]. split; [discriminate|]. split; [discriminate|].
  apply (unknown_opcode_EINVAL env_zero 0 (arg_set_size 4) (ring4 0 0 0) H0);
    discriminate.
Defined.

(** C8 (validation and staging come before any mutation). A push request
    returns [-EFAULT] and leaves [rb] as it was when the request structure
    cannot be read, and when, the scratch block allocated, the copy of the
    payload from user memory fails. A push or pop request whose length is
    not positive returns [-EINVAL] and leaves [rb] as it was. *)
Theorem validation_before_mutation (e : env) (arg : user_arg) (rb : ringbuf) :
  (arg_qd arg = None ->
   ringbuf_ioctl e PUSH_DATA arg rb = Done (rb, arg, Returned (- EFAULT))) /\
  (forall ud kbuf0,
     arg_qd arg = Some ud -> 0 < to_int (qd_length ud) ->
     kmalloc (env_alloc e) (to_int (qd_length ud)) = Some kbuf0 ->
     copy_from_user kbuf0 (qd_data ud) (to_int (qd_length ud)) = None ->
     ringbuf_ioctl e PUSH_DATA arg rb = Done (rb, arg, Returned (- EFAULT))) /\
  (forall ud,
     arg_qd arg = Some ud -> to_int (qd_length ud) <= 0 ->
     ringbuf_ioctl e PUSH_DATA arg rb = Done (rb, arg, Returned (- EINVAL)) /\
     ringbuf_ioctl e POP_DATA arg rb = Done (rb, arg, Returned (- EINVAL))).
Proof.
  split; [|split].
  - intros Hq. rewrite ioctl_push. unfold push_data_case. now rewrite Hq.
  - intros ud kbuf0 Hq Hlen Hk0 Hk. rewrite ioctl_push.
    unfold push_data_case. rewrite Hq.
    destruct (Z.leb_spec (to_int (qd_length ud)) 0); [lia|].
    pose proof (to_int_range (qd_length ud)). pose proof INT_MAX_lt_modulus.
    rewrite to_size_small by lia. now rewrite Hk0, Hk.
  - intros ud Hq Hlen. rewrite ioctl_push, ioctl_pop.
    unfold push_data_case, pop_data_case. rewrite Hq.
    now destruct (Z.leb_spec (to_int (qd_length ud)) 0); [|lia].
Qed.

(** A push of 3 bytes from an unmapped address into a buffer holding "abc". *)
Lemma validation_before_mutation_witness :
  let arg := UserArg None (Some (QueueData 3 None)) true in
  let rb := Ringbuf (Some ["a"; "b"; "c"; x00]%byte) 4 0 3 3 true true in
  arg_qd arg = Some (QueueData 3 None) /\
  0 < to_int 3 /\
  kmalloc (env_alloc env_zero) (to_int 3) = Some [x00; x00; x00] /\
  copy_from_user [x00; x00; x00] None (to_int 3) = None /\
  ringbuf_ioctl env_zero PUSH_DATA arg rb = Done (rb, arg, Returned (- EFAULT)).
Proof.
  intros arg rb. split; [reflexivity|]. split; [reflexivity|].
  split; [reflexivity|]. split; [reflexivity|].
  apply (proj1 (proj2 (validation_before_mutation env_zero arg rb))
           (QueueData 3 None) [x00; x00; x00]); reflexivity.
Defined.

(** C9 (no buffer). With no storage allocated and [size = count = 0], a
    push of any positive length returns [-ENOSPC] and a pop returns 0
    bytes, both leaving the state and the destination block as they were.
    [-ENOSPC] is also what a push of a positive length into a full buffer
    returns: the return value does not tell the two situations apart. *)
Theorem uninitialized_push_pop (rb : ringbuf) :
  uninitialized rb ->
  (forall kdata len, 0 < len ->
     ringbuf_push_locked kdata len rb = Done (rb, - ENOSPC)) /\
  (forall out len, 0 <= len ->
     ringbuf_pop_locked out len rb = Done (rb, out, 0)) /\
  (forall full kdata len,
     wf full -> rb_count full = rb_size full -> 0 < len < size_modulus ->
     ringbuf_push_locked kdata len full = Done (full, - ENOSPC)).
Proof.
  intros (Hbuf & Hsz & Hc). split; [|split].
  - intros kdata len Hlen. apply push_locked_nospace.
    rewrite Hsz, Hc. change (size_sub 0 0) with 0. lia.
  - intros out len Hlen. unfold ringbuf_pop_locked. rewrite Hc.
    replace (if len >? 0 then 0 else len) with 0
      by (destruct (Z.gtb_spec len 0); lia).
    change (Z.to_nat 0) with 0%nat. cbn [pop_loop]. unfold mbind, exec_bind.
    rewrite Hc. change (size_sub 0 0) with 0. change (to_ssize 0) with 0.
    destruct rb. cbn in Hc. now subst.
  - intros full kdata len Hwf Hfull Hlen. apply push_locked_nospace.
    rewrite Hfull. unfold size_sub. rewrite Z.sub_diag.
    change (to_size 0) with 0. lia.
Qed.

Lemma uninitialized_push_pop_witness :
  uninitialized rb_static /\
  ringbuf_push_locked ["a"]%byte 1 rb_static = Done (rb_static, - ENOSPC).
Proof.
  assert (H : uninitialized rb_static) by (repeat split).
  split; [exact H|].
  apply (proj1 (uninitialized_push_pop rb_static H)). lia.
Defined.

(** Once [size] is not 0 the copy loops never take a remainder by zero,
    whatever else goes wrong. *)
Lemma push_loop_no_div n : forall kdata i rb,
  rb_size rb <> 0 -> push_loop n kdata i rb <> Undefined DivByZero.
Proof.
  induction n as [|n IH]; intros kdata i rb Hsz; [done|].
  cbn [push_loop]. unfold load_at, store, store_at, deref, size_rem.
  destruct (kdata !! Z.to_nat i); [|done]. cbn.
  destruct (rb_buf rb); [|done]. cbn.
  case_bool_decide; [|done]. cbn.
  destruct (Z.eqb_spec (rb_size rb) 0); [done|]. cbn.
  now apply IH.
Qed.

Lemma pop_loop_no_div n : forall out i rb,
  rb_size rb <> 0 -> pop_loop n out i rb <> Undefined DivByZero.
Proof.
  induction n as [|n IH]; intros out i rb Hsz; [done|].
  cbn [pop_loop]. unfold load, load_at, store_at, deref, size_rem.
  destruct (rb_buf rb) as [l|]; [|done]. cbn.
  destruct (l !! Z.to_nat (rb_head rb)); [|done]. cbn.
  case_bool_decide; [|done]. cbn.
  destruct (Z.eqb_spec (rb_size rb) 0); [done|]. cbn.
  now apply IH.
Qed.

(** C10 (no remainder by zero). In every reachable state, [size = 0]
    implies [count = 0], and neither queue operation, on any arguments,
    ends in the undefined remainder by zero. With [size = 0] the loops are
    not entered at all: a push of a positive length is turned away by the
    space check with [-ENOSPC], and a pop copies [min(len, 0) = 0] bytes. *)
Theorem modulo_never_by_zero (rb : ringbuf) :
  reachable rb ->
  (rb_size rb = 0 -> rb_count rb = 0) /\
  (forall kdata len,
     ringbuf_push_locked kdata len rb <> Undefined DivByZero) /\
  (forall out len,
     ringbuf_pop_locked out len rb <> Undefined DivByZero) /\
  (rb_size rb = 0 ->
   (forall kdata len, 0 < len ->
      ringbuf_push_locked kdata len rb = Done (rb, - ENOSPC)) /\
   (forall out len, 0 <= len ->
      ringbuf_pop_locked out len rb = Done (rb, out, 0))).
Proof.
  intros Hr. apply reachable_inv in Hr as [Hidle | Hwf].
  - pose proof Hidle as (Hb & Hs & Hh & Ht & Hc).
    split; [done|]. split; [|split].
    + intros kdata len. unfold ringbuf_push_locked. rewrite Hs, Hc.
      change (size_sub 0 0) with 0.
      destruct (Z.gtb_spec len 0); [done|].
      replace (Z.to_nat len) with 0%nat by lia. done.
    + intros out len. unfold ringbuf_pop_locked. rewrite Hc.
      destruct (Z.gtb_spec len 0); [done|].
      replace (Z.to_nat len) with 0%nat by lia. done.
    + intros _. split.
      * intros kdata len Hlen. now apply push_locked_idle.
      * intros out len Hlen. now apply pop_locked_idle.
  - pose proof Hwf as (_ & Hsz & _). split; [lia|]. split; [|split; [|lia]].
    + intros kdata len. unfold ringbuf_push_locked.
      destruct (len >? _); [done|].
      pose proof (push_loop_no_div (Z.to_nat len) kdata 0 rb ltac:(lia)).
      now destruct (push_loop _ _ _ _) as [rb1|[]].
    + intros out len. unfold ringbuf_pop_locked. cbn zeta.
      set (n := Z.to_nat _).
      pose proof (pop_loop_no_div n out 0 rb ltac:(lia)).
      now destruct (pop_loop _ _ _ _) as [[rb1 out1]|[]].
Qed.

Lemma modulo_never_by_zero_witness :
  reachable (Ringbuf (Some ["a"; "b"; "c"; x00]%byte) 4 0 3 3 true true) /\
  ringbuf_push_locked ["d"]%byte 1
    (Ringbuf (Some ["a"; "b"; "c"; x00]%byte) 4 0 3 3 true true)
  <> Undefined DivByZero.
Proof.
  split; [exact reachable_abc|].
  apply (proj1 (proj2 (modulo_never_by_zero _ reachable_abc))).
Defined.

(* ===================================================================== *)
(** ** Further properties of the queue *)

Lemma length_contents rb :
  wf rb -> length (contents rb) = Z.to_nat (rb_count rb).
Proof.
  intros ((l & Hl & _) & _). unfold contents. rewrite Hl.
  apply length_ring_slice.
Qed.

(** The state after [SetSize(4); Push("abc"); Push("d")], a full buffer,
    is reachable. *)
Lemma reachable_full4 :
  reachable (Ringbuf (Some ["a"; "b"; "c"; "d"]%byte) 4 0 0 4 true true).
Proof.
  apply (reach_ioctl env_zero PUSH_DATA (arg_queue 1 ["d"]%byte)
           (Ringbuf (Some ["a"; "b"; "c"; x00]%byte) 4 0 3 3 true true) _
           (arg_queue 1 ["d"]%byte) (Returned 1)).
  - exact reachable_abc.
  - intros s Hs. cbn in Hs. now apply elem_of_nil in Hs.
  - reflexivity.
Defined.

(** X1 (consistency of reachable states). A reachable [rb] is either the
    load-time value (no storage, every field 0, wait queue and mutex never
    initialised), or the value a failed resize leaves after an earlier
    successful one (no storage, every data field 0, wait queue and mutex
    initialised), or has storage of exactly [size] bytes with
    [0 < size <= INT_MAX], [head] inside the storage, [count <= size],
    [tail = (head + count) mod size] and the wait queue and the mutex
    initialised; the queue it holds has [count] bytes. *)
Theorem reachable_consistent (rb : ringbuf) :
  reachable rb ->
  rb = rb_static \/
  rb = Ringbuf None 0 0 0 0 true true \/
  exists l,
    rb_buf rb = Some l /\ Z.of_nat (length l) = rb_size rb /\
    0 < rb_size rb <= INT_MAX /\
    0 <= rb_head rb < rb_size rb /\
    0 <= rb_count rb <= rb_size rb /\
    rb_tail rb = (rb_head rb + rb_count rb) mod rb_size rb /\
    length (contents rb) = Z.to_nat (rb_count rb) /\
    rb_rq rb = true /\ rb_lock rb = true.
Proof.
  intros Hr. pose proof (reachable_synced rb Hr) as [Hql Hq].
  destruct (reachable_inv rb Hr) as [Hidle | Hwf].
  - destruct rb as [p sz h t c rq lk].
    destruct Hidle as (Hb & Hs & Hh & Ht & Hc). cbn in *. subst.
    destruct lk; [right; now left | now left].
  - right. right. destruct Hwf as ((l & Hl & Hlen) & Hsz & Hh & Hc & Ht).
    exists l. repeat (split; [done|]).
    split; [unfold contents; rewrite Hl; apply length_ring_slice|].
    assert (Hrq : rb_rq rb = true) by (apply Hq; now rewrite Hl).
    split; [done|]. now rewrite <- Hql.
Qed.

Lemma reachable_consistent_witness :
  let rb := Ringbuf (Some ["a"; "b"; "c"; x00]%byte) 4 0 3 3 true true in
  reachable rb /\
  (rb = rb_static \/
   rb = Ringbuf None 0 0 0 0 true true \/
   exists l,
     rb_buf rb = Some l /\ Z.of_nat (length l) = rb_size rb /\
     0 < rb_size rb <= INT_MAX /\
     0 <= rb_head rb < rb_size rb /\
     0 <= rb_count rb <= rb_size rb /\
     rb_tail rb = (rb_head rb + rb_count rb) mod rb_size rb /\
     length (contents rb) = Z.to_nat (rb_count rb) /\
     rb_rq rb = true /\ rb_lock rb = true).
Proof.
  intros rb. split; [exact reachable_abc|].
  apply (reachable_consistent rb reachable_abc).
Defined.

(** X2 (head meets tail). In a reachable state with storage, [head = tail]
    exactly when the buffer is empty or full: the indices alone do not tell
    the two apart, [count] does. *)
Theorem head_meets_tail (rb : ringbuf) :
  reachable rb -> rb_buf rb <> None ->
  (rb_head rb = rb_tail rb <-> rb_count rb = 0 \/ rb_count rb = rb_size rb).
Proof.
  intros Hr Hbuf.
  destruct (reachable_inv rb Hr) as [(Hb & _) | Hwf]; [done|].
  destruct Hwf as (_ & Hsz & Hh & Hc & Ht). rewrite Ht. split.
  - intros Heq.
    destruct (Z.eq_dec (rb_count rb) 0) as [|Hne]; [now left|right].
    destruct (Z.eq_dec (rb_count rb) (rb_size rb)) as [|Hne']; [done|].
    exfalso.
    apply (mod_apart (rb_size rb) (rb_head rb) (rb_head rb + rb_count rb));
      [lia | lia |].
    rewrite <- Heq. apply Z.mod_small. lia.
  - intros [-> | ->].
    + rewrite Z.add_0_r, Z.mod_small; lia.
    + replace (rb_head rb + rb_size rb) with (rb_head rb + 1 * rb_size rb)
        by lia.
      rewrite Z.mod_add, Z.mod_small; lia.
Qed.

Lemma head_meets_tail_witness :
  reachable (Ringbuf (Some ["a"; "b"; "c"; "d"]%byte) 4 0 0 4 true true) /\
  Some ["a"; "b"; "c"; "d"]%byte <> None /\
  (0 = 0 <-> 4 = 0 \/ 4 = 4).
Proof.
  split; [exact reachable_full4|]. split; [discriminate|].
  apply (head_meets_tail _ reachable_full4). discriminate.
Defined.

(** X3 (the buffer is a queue). On a consistent buffer the queue held has
    [count] bytes; a push of [len] bytes that fit appends the first [len]
    source bytes to the queue; a pop of [len] bytes writes the first [len]
    bytes of the queue (all of it if it is shorter) to the start of the
    destination block, returns how many, and removes them from the queue.
    Both leave the buffer consistent. *)
Theorem queue_refinement (rb : ringbuf) (l kdata out : list byte) (len : Z) :
  wf rb -> rb_buf rb = Some l -> 0 <= len < size_modulus ->
  len <= Z.of_nat (length kdata) -> len <= Z.of_nat (length out) ->
  length (contents rb) = Z.to_nat (rb_count rb) /\
  (len <= rb_size rb - rb_count rb ->
   exists rb',
     ringbuf_push_locked kdata len rb = Done (rb', len) /\ wf rb' /\
     contents rb' = contents rb ++ take (Z.to_nat len) kdata) /\
  (exists rb',
     ringbuf_pop_locked out len rb
       = Done (rb', take (Z.to_nat len) (contents rb)
                      ++ drop (Z.to_nat (Z.min len (rb_count rb))) out,
               Z.min len (rb_count rb)) /\
     wf rb' /\
     contents rb' = drop (Z.to_nat len) (contents rb)).
Proof.
  intros Hwf Hl Hlen Hk Hout.
  assert (Hlc : length (contents rb) = Z.to_nat (rb_count rb)).
  { unfold contents. rewrite Hl. apply length_ring_slice. }
  pose proof Hwf as (_ & _ & _ & Hc & _).
  split; [done|]. split.
  - intros Hfit.
    destruct (push_locked_ok kdata len rb l) as (l' & Hrun & Hwf' & Hcont & _);
      [done | done | lia | done |].
    eexists. split; [exact Hrun|]. split; [exact Hwf' | exact Hcont].
  - destruct (pop_locked_ok out len rb Hwf) as (Hrun & Hwf' & Hcont);
      [lia | lia |].
    cbn zeta in *. eexists. split; [|split; [exact Hwf'|]].
    + rewrite Hrun. do 3 f_equal.
      destruct (Z.le_ge_cases len (rb_count rb)).
      * now rewrite Z.min_l by lia.
      * rewrite Z.min_r by lia. rewrite !take_ge by lia. done.
    + rewrite Hcont. destruct (Z.le_ge_cases len (rb_count rb)).
      * now rewrite Z.min_l by lia.
      * rewrite Z.min_r by lia. rewrite !drop_ge by lia. done.
Qed.

Lemma queue_refinement_witness :
  wf (ring4 2 3 1) /\ rb_buf (ring4 2 3 1) = Some [x00; x00; x00; x00] /\
  0 <= 1 < size_modulus /\ 1 <= Z.of_nat (length ["d"]%byte) /\
  1 <= Z.of_nat (length [x01]) /\
  length (contents (ring4 2 3 1)) = Z.to_nat (rb_count (ring4 2 3 1)).
Proof.
  assert (Hm : 0 <= 1 < size_modulus) by (unfold size_modulus, SIZE_WIDTH; lia).
  assert (Hk : 1 <= Z.of_nat (length ["d"]%byte)) by (cbn; lia).
  assert (Ho : 1 <= Z.of_nat (length [x01])) by (cbn; lia).
  split; [exact wf_ring4_one|]. split; [reflexivity|].
  split; [exact Hm|]. split; [exact Hk|]. split; [exact Ho|].
  apply (queue_refinement (ring4 2 3 1) [x00; x00; x00; x00] ["d"]%byte [x01] 1
           wf_ring4_one eq_refl Hm Hk Ho).
Defined.

(** An instance of X4: one byte queued, three pushed across the end of
    storage, four popped. *)
Lemma push_then_pop_all_witness :
  wf (ring4 2 3 1) /\
  Z.of_nat (length ["d"; "e"; "f"]%byte)
    <= rb_size (ring4 2 3 1) - rb_count (ring4 2 3 1) /\
  rb_count (ring4 2 3 1) + Z.of_nat (length ["d"; "e"; "f"]%byte)
    <= Z.of_nat (length [x01; x01; x01; x01]) /\
  exists rb1 rb2,
    ringbuf_push_locked ["d"; "e"; "f"]%byte 3 (ring4 2 3 1) = Done (rb1, 3) /\
    ringbuf_pop_locked [x01; x01; x01; x01] 4 rb1
      = Done (rb2, [x00; "d"; "e"; "f"]%byte, 4).
Proof.
  split; [exact wf_ring4_one|]. split; [cbn; lia|]. split; [cbn; lia|].
  apply (push_then_pop_all (ring4 2 3 1) ["d"; "e"; "f"]%byte
           [x01; x01; x01; x01] wf_ring4_one); cbn; lia.
Defined.

Lemma slot_cover sz t (j : nat) :
  0 < sz -> Z.of_nat j < sz -> j = slot sz t ((Z.of_nat j - t) mod sz).
Proof.
  intros Hsz Hj. unfold slot.
  rewrite Zplus_mod_idemp_r.
  replace (t + (Z.of_nat j - t)) with (Z.of_nat j) by lia.
  rewrite Z.mod_small by lia. lia.
Qed.

Lemma storage_eq (l1 l2 : list byte) sz t :
  0 < sz -> Z.of_nat (length l1) = sz -> length l2 = length l1 ->
  (forall d, 0 <= d < sz -> l1 !! slot sz t d = l2 !! slot sz t d) ->
  l1 = l2.
Proof.
  intros Hsz H1 H2 Hd. apply list_eq. intros j.
  destruct (Z.lt_ge_cases (Z.of_nat j) sz) as [Hj|Hj].
  - rewrite (slot_cover sz t j) by done. apply Hd.
    apply Z.mod_pos_bound. lia.
  - rewrite !lookup_ge_None_2; [done|lia..].
Qed.

(** X5 (pushes compose). When [X] and [Y] together fit, pushing [X] and
    then [Y] leaves exactly the state that pushing [X ++ Y] at once leaves:
    the same storage, indices and count. *)
Theorem push_split (rb : ringbuf) (X Y : list byte) :
  wf rb ->
  Z.of_nat (length X) + Z.of_nat (length Y) <= rb_size rb - rb_count rb ->
  exists rb1 rb2,
    ringbuf_push_locked X (Z.of_nat (length X)) rb
      = Done (rb1, Z.of_nat (length X)) /\
    ringbuf_push_locked Y (Z.of_nat (length Y)) rb1
      = Done (rb2, Z.of_nat (length Y)) /\
    ringbuf_push_locked (X ++ Y) (Z.of_nat (length X) + Z.of_nat (length Y)) rb
      = Done (rb2, Z.of_nat (length X) + Z.of_nat (length Y)).
Proof.
  intros Hwf Hfit. set (a := Z.of_nat (length X)) in *.
  set (b := Z.of_nat (length Y)) in *.
  destruct (wf_buf rb Hwf) as [l Hl].
  pose proof Hwf as ((l0 & Hl0 & Hlen) & Hsz & Hh & Hc & Ht).
  rewrite Hl in Hl0. injection Hl0 as <-.
  destruct (push_locked_ok X a rb l) as (l1 & Hp1 & Hwf1 & _ & Hlen1 & Hn1 & Ho1);
    [done | done | lia | lia |].
  cbn zeta in Hp1, Hwf1. set (rb1 := Ringbuf (Some l1) _ _ _ _ _ _) in *.
  destruct (push_locked_ok Y b rb1 l1) as (l2 & Hp2 & _ & _ & Hlen2 & Hn2 & Ho2);
    [done | done | cbn; lia | lia |].
  cbn zeta in Hp2. cbn [rb1 rb_size rb_head rb_tail rb_count] in Hp2, Hn2, Ho2.
  destruct (push_locked_ok (X ++ Y) (a + b) rb l)
    as (l3 & Hp3 & _ & _ & Hlen3 & Hn3 & Ho3);
    [done | done | lia | rewrite length_app; lia |].
  cbn zeta in Hp3.
  exists rb1, (Ringbuf (Some l2) (rb_size rb) (rb_head rb)
            (((rb_tail rb + a) mod rb_size rb + b) mod rb_size rb)
            (rb_count rb + a + b) (rb_rq rb) (rb_lock rb)).
  split; [exact Hp1|]. split; [exact Hp2|]. rewrite Hp3.
  assert (Hl32 : l3 = l2).
  { apply (storage_eq l3 l2 (rb_size rb) (rb_tail rb)); [apply Hsz | now rewrite Hlen3 | now rewrite Hlen2, Hlen1 |].
    intros d Hd.
    assert (Hshift : forall k, slot (rb_size rb)
                       ((rb_tail rb + a) mod rb_size rb) k
                     = slot (rb_size rb) (rb_tail rb) (a + k))
      by (intros; apply slot_shift).
    destruct (Z.lt_ge_cases d a) as [Hda|Hda].
    - rewrite Hn3 by lia. rewrite lookup_app_l by lia.
      rewrite Ho2; [now rewrite Hn1 by lia|].
      intros k Hk. rewrite Hshift. apply slot_apart; lia.
    - destruct (Z.lt_ge_cases d (a + b)) as [Hdb|Hdb].
      + rewrite Hn3 by lia. rewrite lookup_app_r by lia.
        replace d with (a + (d - a)) at 2 by lia.
        rewrite <- Hshift, Hn2 by lia. f_equal. lia.
      + rewrite Ho3; [rewrite Ho2; [rewrite Ho1; [done|]|]|].
        * intros k Hk. apply slot_apart; lia.
        * intros k Hk. rewrite Hshift. apply slot_apart; lia.
        * intros k Hk. apply slot_apart; lia. }
  rewrite Hl32. do 3 f_equal.
  - rewrite Zplus_mod_idemp_l. f_equal. lia.
  - lia.
Qed.

Lemma push_split_witness :
  wf (ring4 3 3 0) /\
  Z.of_nat (length ["a"; "b"]%byte) + Z.of_nat (length ["c"]%byte)
    <= rb_size (ring4 3 3 0) - rb_count (ring4 3 3 0) /\
  exists rb1 rb2,
    ringbuf_push_locked ["a"; "b"]%byte 2 (ring4 3 3 0) = Done (rb1, 2) /\
    ringbuf_push_locked ["c"]%byte 1 rb1 = Done (rb2, 1) /\
    ringbuf_push_locked ["a"; "b"; "c"]%byte 3 (ring4 3 3 0) = Done (rb2, 3).
Proof.
  split; [exact wf_ring4_empty3|]. split; [cbn; lia|].
  apply (push_split (ring4 3 3 0) ["a"; "b"]%byte ["c"]%byte wf_ring4_empty3).
  cbn. lia.
Defined.

(** X6 (pops compose). Popping [a] bytes and then [b] bytes leaves the
    state that popping [a + b] bytes at once leaves, and returns the same
    bytes, in the same order, split over the two destination blocks. *)
Theorem pop_split (rb : ringbuf) (out1 out2 out : list byte) (a b : Z) :
  wf rb -> 0 <= a -> 0 <= b ->
  a <= Z.of_nat (length out1) -> b <= Z.of_nat (length out2) ->
  a + b <= Z.of_nat (length out) ->
  exists rb1 rb2 o1 o2 o n1 n2,
    ringbuf_pop_locked out1 a rb = Done (rb1, o1, n1) /\
    ringbuf_pop_locked out2 b rb1 = Done (rb2, o2, n2) /\
    ringbuf_pop_locked out (a + b) rb = Done (rb2, o, n1 + n2) /\
    take (Z.to_nat (n1 + n2)) o
      = take (Z.to_nat n1) o1 ++ take (Z.to_nat n2) o2.
Proof.
  intros Hwf Ha Hb Ho1 Ho2 Ho.
  pose proof Hwf as ((l & Hl & Hlen) & Hsz & Hh & Hc & Ht).
  assert (Hlc : length (contents rb) = Z.to_nat (rb_count rb)).
  { unfold contents. rewrite Hl. apply length_ring_slice. }
  destruct (pop_locked_ok out1 a rb Hwf) as (Hp1 & Hwf1 & Hc1); [lia|lia|].
  cbn zeta in *. set (n1 := Z.min a (rb_count rb)) in *.
  set (rb1 := Ringbuf _ _ _ _ _ _ _) in *.
  destruct (pop_locked_ok out2 b rb1 Hwf1) as (Hp2 & _ & _); [lia|cbn; lia|].
  cbn zeta in Hp2. cbn [rb1 rb_buf rb_size rb_head rb_tail rb_count] in Hp2.
  set (n2 := Z.min b (rb_count rb - n1)) in *.
  destruct (pop_locked_ok out (a + b) rb Hwf) as (Hp3 & _ & _); [lia|lia|].
  cbn zeta in Hp3.
  assert (Hn : Z.min (a + b) (rb_count rb) = n1 + n2) by lia.
  rewrite Hn in Hp3.
  eexists _, _, _, _, _, n1, n2.
  split; [exact Hp1|]. split; [exact Hp2|]. split.
  - rewrite Hp3. do 3 f_equal.
    f_equal; [rewrite Zplus_mod_idemp_l; f_equal; lia | lia].
  - rewrite Hc1.
    rewrite !take_app_length' by (rewrite length_take, ?length_drop; lia).
    rewrite Z2Nat.inj_add by lia. now rewrite take_take_drop.
Qed.

Lemma pop_split_witness :
  wf (Ringbuf (Some ["a"; "b"; "c"; x00]%byte) 4 0 3 3 true true) /\
  0 <= 1 /\ 0 <= 1 /\ 1 <= Z.of_nat (length [x01]) /\
  1 <= Z.of_nat (length [x01]) /\ 1 + 1 <= Z.of_nat (length [x01; x01]) /\
  exists rb1 rb2 o1 o2 o n1 n2,
    ringbuf_pop_locked [x01] 1
      (Ringbuf (Some ["a"; "b"; "c"; x00]%byte) 4 0 3 3 true true) = Done (rb1, o1, n1) /\
    ringbuf_pop_locked [x01] 1 rb1 = Done (rb2, o2, n2) /\
    ringbuf_pop_locked [x01; x01] (1 + 1)
      (Ringbuf (Some ["a"; "b"; "c"; x00]%byte) 4 0 3 3 true true)
      = Done (rb2, o, n1 + n2) /\
    take (Z.to_nat (n1 + n2)) o
      = take (Z.to_nat n1) o1 ++ take (Z.to_nat n2) o2.
Proof.
  split; [exact wf_abc|]. repeat (split; [cbn; lia|]).
  apply (pop_split _ [x01] [x01] [x01; x01] 1 1 wf_abc); cbn; lia.
Defined.

(** X13 ([ringbuf_init] without [ringbuf_free]). When its allocation
    fails, [ringbuf_init] has already overwritten [rb.buf] with the null
    pointer and returns [-ENOMEM] without touching [size] and [count]. Run
    on a live buffer with room left, it leaves a state in which the next
    one-byte push passes the space check and stores through the null
    pointer; the handler avoids this by calling [ringbuf_free] first. *)
Theorem init_without_free_breaks (rb : ringbuf) (sz : Z) (b : byte) :
  wf rb -> rb_count rb < rb_size rb -> sz <> 0 ->
  let '(rb', ret) := ringbuf_init None sz rb in
  ret = - ENOMEM /\
  rb_buf rb' = None /\ rb_size rb' = rb_size rb /\
  rb_count rb' = rb_count rb /\
  ringbuf_push_locked [b] 1 rb' = Undefined NullDeref.
Proof.
  intros Hwf Hroom Hsz. pose proof Hwf as (_ & Hs & _ & Hc & _).
  pose proof INT_MAX_lt_modulus.
  unfold ringbuf_init. destruct (Z.eqb_spec sz 0); [done|]. cbn.
  repeat (split; [done|]).
  unfold ringbuf_push_locked. cbn.
  unfold size_sub. rewrite to_size_small by lia.
  destruct (Z.gtb_spec 1 (rb_size rb - rb_count rb)); [lia|]. done.
Qed.

Lemma init_without_free_breaks_witness :
  wf (ring4 2 3 1) /\ rb_count (ring4 2 3 1) < rb_size (ring4 2 3 1) /\
  8 <> 0 /\
  ringbuf_push_locked ["d"]%byte 1 (ringbuf_init None 8 (ring4 2 3 1)).1
  = Undefined NullDeref.
Proof.
  assert (Hr : rb_count (ring4 2 3 1) < rb_size (ring4 2 3 1)) by (cbn; lia).
  assert (H8 : 8 <> 0) by discriminate.
  split; [exact wf_ring4_one|]. split; [exact Hr|]. split; [exact H8|].
  apply (init_without_free_breaks (ring4 2 3 1) 8 "d"%byte wf_ring4_one Hr H8).
Defined.

(* ===================================================================== *)
(** ** Further properties of the handler *)

(** X7 (outcomes of a push request). In a reachable state a [PUSH_DATA]
    request always returns and never changes the user memory. Either it
    returns one of [-EFAULT], [-EINVAL], [-ENOMEM], [-ENOSPC] and [rb] is
    exactly as before, or it returns the requested length [r > 0], the
    payload was readable and fitted, [count] grew by [r] and the first [r]
    payload bytes were appended to the queue. *)
Theorem push_request_outcomes (e : env) (arg : user_arg) (rb : ringbuf) :
  reachable rb ->
  exists rb' r,
    ringbuf_ioctl e PUSH_DATA arg rb = Done (rb', arg, Returned r) /\
    ((rb' = rb /\
      (r = - EFAULT \/ r = - EINVAL \/ r = - ENOMEM \/ r = - ENOSPC)) \/
     (exists ud data,
        arg_qd arg = Some ud /\ qd_data ud = Some data /\
        r = to_int (qd_length ud) /\ 0 < r <= Z.of_nat (length data) /\
        r <= rb_size rb - rb_count rb /\
        rb_count rb' = rb_count rb + r /\
        contents rb' = contents rb ++ take (Z.to_nat r) data)).
Proof.
  intros Hr. apply reachable_inv in Hr as Hinv.
  pose proof INT_MAX_lt_modulus as Hmax.
  rewrite ioctl_push. unfold push_data_case.
  destruct (arg_qd arg) as [ud|]; [|cbn; by eauto 10].
  destruct (to_int (qd_length ud) <=? 0) eqn:Hlen; [cbn; by eauto 10|].
  apply to_int_pos in Hlen. rewrite to_size_small by lia.
  destruct (env_alloc e) as [junk|]; cbn [kmalloc]; [|cbn; by eauto 10].
  destruct (qd_data ud) as [data|] eqn:Hd; [|cbn; by eauto 10].
  destruct (Z.le_gt_cases (to_int (qd_length ud)) (Z.of_nat (length data)))
    as [Hfit|Hshort].
  2:{ unfold copy_from_user. rewrite bool_decide_false by lia.
      cbn. by eauto 10. }
  rewrite staged_payload by lia.
  set (n := to_int (qd_length ud)) in *.
  destruct Hinv as [Hidle | Hwf].
  - rewrite push_locked_nospace; [cbn; by eauto 10|].
    destruct Hidle as (_ & -> & _ & _ & ->).
    change (size_sub 0 0) with 0. lia.
  - pose proof Hwf as ((l & Hl & _) & Hsz & _ & Hc & _).
    pose proof (reachable_rq rb Hr Hwf) as Hrq.
    destruct (Z.le_gt_cases n (rb_size rb - rb_count rb)) as [Hroom|Hfull].
    + destruct (push_locked_ok (take (Z.to_nat n) data) n rb l)
        as (l' & -> & _ & Hcont & _);
        [done | done | lia | rewrite length_take; lia |].
      cbn. destruct (Z.gtb_spec n 0); [|lia].
      rewrite Hrq in Hcont |- *. cbn.
      eexists _, _. split; [done|]. right.
      exists ud, data. rewrite Hcont, take_take, Nat.min_id. cbn.
      repeat (split; [done || lia|]). done.
    + rewrite push_locked_nospace; [cbn; by eauto 10|].
      unfold size_sub. rewrite to_size_small; lia.
Qed.

Lemma push_request_outcomes_witness :
  reachable (Ringbuf (Some ["a"; "b"; "c"; x00]%byte) 4 0 3 3 true true) /\
  exists rb' r,
    ringbuf_ioctl env_zero PUSH_DATA (arg_queue 1 ["d"]%byte)
      (Ringbuf (Some ["a"; "b"; "c"; x00]%byte) 4 0 3 3 true true)
    = Done (rb', arg_queue 1 ["d"]%byte, Returned r).
Proof.
  split; [exact reachable_abc|].
  destruct (push_request_outcomes env_zero (arg_queue 1 ["d"]%byte) _
              reachable_abc) as (rb' & r & Hrun & _).
  exists rb', r. exact Hrun.
Defined.



(** X9 (a pop request delivers the oldest bytes). In a reachable state
    that holds data, a [POP_DATA] request for [length > 0] bytes whose
    scratch allocation succeeds and whose destination can take them
    returns at once, whatever the wake-up events: it returns
    [m = min(length, count)], the destination region starts with the [m]
    oldest bytes of the queue, the [length] field of the request is set to
    [m], and those bytes are gone from the queue. *)
Theorem pop_delivers_oldest (e : env) (arg : user_arg) (rb : ringbuf)
  (ud : queue_data) (dest : list byte) (junk : nat -> byte) :
  reachable rb -> rb_count rb > 0 ->
  arg_qd arg = Some ud -> qd_data ud = Some dest ->
  arg_length_writable arg = true -> env_alloc e = Some junk ->
  0 < to_int (qd_length ud) ->
  Z.min (to_int (qd_length ud)) (rb_count rb) <= Z.of_nat (length dest) ->
  let m := Z.min (to_int (qd_length ud)) (rb_count rb) in
  exists rb',
    ringbuf_ioctl e POP_DATA arg rb
    = Done (rb',
            UserArg (Some m)
              (Some (QueueData m
                 (Some (take (Z.to_nat m) (contents rb)
                        ++ drop (Z.to_nat m) dest))))
              true,
            Returned m) /\
    contents rb' = drop (Z.to_nat m) (contents rb) /\
    rb_count rb' = rb_count rb - m.
Proof.
  intros Hr Hc Hq Hd Hw Ha Hlen Hroom m.
  assert (Hwf : wf rb) by (apply wf_count_pos; [now apply reachable_inv|done]).
  destruct (ioctl_pop_nonempty e arg rb ud junk Hwf Hc Hq Ha Hlen)
    as (_ & Hcont & Hm & Hrun).
  cbn zeta in Hcont, Hrun. fold m in Hcont, Hrun.
  pose proof (length_contents rb Hwf) as Hlc.
  eexists. split; [|split; [exact Hcont | done]].
  rewrite Hrun, Hd, Hw. unfold copy_to_user. cbn [fst snd negb].
  rewrite bool_decide_true by lia. cbn [negb].
  rewrite Nat.min_l by lia.
  rewrite take_app_length' by (rewrite length_take; lia). done.
Qed.

Lemma pop_delivers_oldest_witness :
  let rb := Ringbuf (Some ["a"; "b"; "c"; x00]%byte) 4 0 3 3 true true in
  reachable rb /\ rb_count rb > 0 /\
  0 < to_int 2 /\
  Z.min (to_int 2) (rb_count rb) <= Z.of_nat (length [x01; x01]) /\
  exists rb',
    ringbuf_ioctl env_zero POP_DATA (arg_queue 2 [x01; x01]) rb
    = Done (rb',
            UserArg (Some 2) (Some (QueueData 2 (Some ["a"; "b"]%byte))) true,
            Returned 2) /\
    contents rb' = ["c"]%byte /\ rb_count rb' = 1.
Proof.
  intros rb.
  assert (Hc : rb_count rb > 0) by reflexivity.
  assert (Hl : 0 < to_int 2) by reflexivity.
  assert (Hm : Z.min (to_int 2) (rb_count rb) <= Z.of_nat (length [x01; x01]))
    by (vm_compute; discriminate).
  split; [exact reachable_abc|]. split; [exact Hc|]. split; [exact Hl|].
  split; [exact Hm|].
  apply (pop_delivers_oldest env_zero (arg_queue 2 [x01; x01]) rb
           (QueueData 2 (Some [x01; x01])) [x01; x01] (fun _ => x00)
           reachable_abc Hc eq_refl eq_refl eq_refl eq_refl Hl Hm).
Defined.

(** X10 (a failed copy-out loses the bytes). In a reachable state that
    holds data, when the destination of a [POP_DATA] request is unmapped or
    too short for the [m = min(length, count)] bytes popped, or the
    [length] field cannot be written, the request returns [-EFAULT] after
    the pop: [count] has dropped by [m > 0] and the [m] oldest bytes are no
    longer in the queue. *)
Theorem pop_fault_loses_data (e : env) (arg : user_arg) (rb : ringbuf)
  (ud : queue_data) (junk : nat -> byte) :
  reachable rb -> rb_count rb > 0 ->
  arg_qd arg = Some ud -> env_alloc e = Some junk ->
  0 < to_int (qd_length ud) ->
  let m := Z.min (to_int (qd_length ud)) (rb_count rb) in
  match qd_data ud with
  | None => True
  | Some dest => Z.of_nat (length dest) < m \/ arg_length_writable arg = false
  end ->
  exists rb' arg',
    ringbuf_ioctl e POP_DATA arg rb = Done (rb', arg', Returned (- EFAULT)) /\
    0 < m /\
    rb_count rb' = rb_count rb - m /\
    contents rb' = drop (Z.to_nat m) (contents rb).
Proof.
  intros Hr Hc Hq Ha Hlen m Hbad.
  assert (Hwf : wf rb) by (apply wf_count_pos; [now apply reachable_inv|done]).
  destruct (ioctl_pop_nonempty e arg rb ud junk Hwf Hc Hq Ha Hlen)
    as (_ & Hcont & Hm & Hrun).
  cbn zeta in Hcont, Hrun. fold m in Hcont, Hrun.
  rewrite Hrun. unfold copy_to_user.
  destruct (qd_data ud) as [dest|]; cbn [fst snd negb].
  - destruct Hbad as [Hshort | Hro].
    + rewrite bool_decide_false by lia. cbn [negb]. by eauto 10.
    + rewrite Hro. cbn [negb]. case_bool_decide; cbn [negb]; by eauto 10.
  - by eauto 10.
Qed.

Lemma pop_fault_loses_data_witness :
  let rb := Ringbuf (Some ["a"; "b"; "c"; x00]%byte) 4 0 3 3 true true in
  let arg := UserArg None (Some (QueueData 2 None)) true in
  reachable rb /\ rb_count rb > 0 /\ 0 < to_int 2 /\
  exists rb' arg',
    ringbuf_ioctl env_zero POP_DATA arg rb
      = Done (rb', arg', Returned (- EFAULT)) /\
    0 < Z.min (to_int 2) (rb_count rb) /\
    rb_count rb' = rb_count rb - Z.min (to_int 2) (rb_count rb) /\
    contents rb' = drop (Z.to_nat (Z.min (to_int 2) (rb_count rb))) (contents rb).
Proof.
  intros rb arg.
  assert (Hc : rb_count rb > 0) by reflexivity.
  assert (Hl : 0 < to_int 2) by reflexivity.
  split; [exact reachable_abc|]. split; [exact Hc|]. split; [exact Hl|].
  apply (pop_fault_loses_data env_zero arg rb (QueueData 2 None)
           (fun _ => x00) reachable_abc Hc eq_refl eq_refl Hl I).
Defined.



(** X12 (round trip through the handler). In a reachable state with an
    empty buffer, a [PUSH_DATA] request for [n] bytes ([0 < n <= size],
    payload readable, allocation successful) returns [n], and a
    [POP_DATA] request for [n] bytes made next returns [n], sets the
    request's [length] field to [n] and leaves the first [n] payload bytes
    at the start of the destination region; the buffer is empty again. *)
Theorem request_round_trip (e1 e2 : env) (rb : ringbuf) (n : Z)
  (src dst : list byte) (j1 j2 : nat -> byte) :
  reachable rb -> rb_buf rb <> None -> rb_count rb = 0 ->
  env_alloc e1 = Some j1 -> env_alloc e2 = Some j2 ->
  0 < n <= rb_size rb ->
  n <= Z.of_nat (length src) -> n <= Z.of_nat (length dst) ->
  exists rb1 rb2,
    ringbuf_ioctl e1 PUSH_DATA (arg_queue n src) rb
      = Done (rb1, arg_queue n src, Returned n) /\
    ringbuf_ioctl e2 POP_DATA (arg_queue n dst) rb1
      = Done (rb2,
              UserArg (Some n)
                (Some (QueueData n
                   (Some (take (Z.to_nat n) src ++ drop (Z.to_nat n) dst))))
                true,
              Returned n) /\
    rb_count rb2 = 0.
Proof.
  intros Hr Hbuf Hc Ha1 Ha2 Hn Hsrc Hdst.
  destruct (reachable_inv rb Hr) as [(Hb & _) | Hwf]; [done|].
  pose proof Hwf as (_ & Hsz & _).
  assert (Hi : to_int n = n) by (apply to_int_small; unfold INT_MAX in *; lia).
  destruct (ioctl_push_fits e1 (arg_queue n src) rb (QueueData n (Some src))
              src j1 Hwf (reachable_rq rb Hr Hwf) eq_refl eq_refl Ha1)
    as (rb1 & Hpush & Hwf1 & Hc1 & Hcont1); cbn [qd_length]; [lia | lia |].
  cbn [qd_length] in *. rewrite Hi in *.
  rewrite (contents_empty rb Hc) in Hcont1. cbn [app] in Hcont1.
  destruct (ioctl_pop_nonempty e2 (arg_queue n dst) rb1
              (QueueData n (Some dst)) j2 Hwf1 ltac:(lia) eq_refl Ha2)
    as (_ & _ & _ & Hpop); cbn [qd_length]; [lia|].
  cbn zeta in Hpop. cbn [qd_length qd_data arg_queue arg_int
                         arg_length_writable] in Hpop.
  rewrite Hi, Hc1, Hc, Z.add_0_l, Z.min_id, Hcont1 in Hpop.
  unfold copy_to_user in Hpop. cbn [fst snd negb] in Hpop.
  rewrite bool_decide_true in Hpop by lia. cbn [negb] in Hpop.
  rewrite Nat.min_l in Hpop by lia.
  rewrite take_app_length' in Hpop by (rewrite !length_take; lia).
  rewrite take_take, Nat.min_id in Hpop.
  eexists _, _. split; [exact Hpush|]. split; [exact Hpop|]. cbn. lia.
Qed.

Lemma request_round_trip_witness :
  reachable (ring4 0 0 0) /\ rb_buf (ring4 0 0 0) <> None /\
  rb_count (ring4 0 0 0) = 0 /\ 0 < 3 <= rb_size (ring4 0 0 0) /\
  3 <= Z.of_nat (length ["a"; "b"; "c"]%byte) /\
  3 <= Z.of_nat (length [x01; x01; x01; x01]) /\
  exists rb1 rb2,
    ringbuf_ioctl env_zero PUSH_DATA (arg_queue 3 ["a"; "b"; "c"]%byte)
      (ring4 0 0 0)
      = Done (rb1, arg_queue 3 ["a"; "b"; "c"]%byte, Returned 3) /\
    ringbuf_ioctl env_zero POP_DATA (arg_queue 3 [x01; x01; x01; x01]) rb1
      = Done (rb2,
              UserArg (Some 3)
                (Some (QueueData 3 (Some ["a"; "b"; "c"; x01]%byte))) true,
              Returned 3) /\
    rb_count rb2 = 0.
Proof.
  assert (Hb : rb_buf (ring4 0 0 0) <> None) by discriminate.
  assert (Hn : 0 < 3 <= rb_size (ring4 0 0 0)) by (cbn; lia).
  assert (Hs : 3 <= Z.of_nat (length ["a"; "b"; "c"]%byte)) by (cbn; lia).
  assert (Hd : 3 <= Z.of_nat (length [x01; x01; x01; x01])) by (cbn; lia).
  split; [exact reachable_ring4|]. split; [exact Hb|]. split; [reflexivity|].
  split; [exact Hn|]. split; [exact Hs|]. split; [exact Hd|].
  apply (request_round_trip env_zero env_zero (ring4 0 0 0) 3
           ["a"; "b"; "c"]%byte [x01; x01; x01; x01]
           (fun _ => x00) (fun _ => x00)
           reachable_ring4 Hb eq_refl eq_refl eq_refl Hn Hs Hd).
Defined.

(* ===================================================================== *)
(** ** Module load and the control utility *)

Lemma PTR_ERR_nonzero p : IS_ERR p = true -> to_int (PTR_ERR p) < 0.
Proof.
  unfold IS_ERR, PTR_ERR, to_size, to_ssize, to_int, size_modulus, SIZE_WIDTH,
    MAX_ERRNO.
  intros H. apply Z.leb_le in H.
  assert (He : (Z.opp 4095) mod 2 ^ 64 = 2 ^ 64 - 4095) by reflexivity.
  rewrite He in H.
  pose proof (Z.mod_pos_bound p (2 ^ 64) ltac:(lia)) as Hp.
  set (q := p mod 2 ^ 64) in *.
  replace ((q + 2 ^ 63) mod 2 ^ 64) with (q - 2 ^ 63).
  2:{ apply Z.mod_unique with 1; lia. }
  replace ((q - 2 ^ 63 - 2 ^ 63 + 2 ^ 31) mod 2 ^ 32)
    with (q - 2 ^ 64 + 2 ^ 31).
  2:{ apply Z.mod_unique with 0; lia. }
  lia.
Qed.

Ltac load_cases :=
  repeat split; try (intros (? & ? & ? & ?)); intros;
  try lia; try congruence; try done.


(** X14 (module load registers all or nothing). Starting with nothing
    registered, [ringbuf_init_module] returns 0 exactly when all four
    registration calls succeed, and then the region, the character device,
    the class and the device node are all registered; whenever it returns
    a non-zero value every registration it had made has been undone. A
    failure of [device_create] alone is reported as [-ENOMEM], whatever
    error the returned pointer encodes. *)
Theorem module_load_all_or_nothing (le : load_env) :
  let '(k, ret) := ringbuf_init_module le registered_none in
  (ret = 0 <->
   to_int (le_alloc_chrdev_region le) = 0 /\ to_int (le_cdev_add le) = 0 /\
   IS_ERR (le_class_create le) = false /\
   IS_ERR (le_device_create le) = false) /\
  (ret = 0 -> k = registered_all) /\
  (ret <> 0 -> k = registered_none) /\
  (to_int (le_alloc_chrdev_region le) = 0 -> to_int (le_cdev_add le) = 0 ->
   IS_ERR (le_class_create le) = false ->
   IS_ERR (le_device_create le) = true -> ret = - ENOMEM).
Proof.
  unfold ringbuf_init_module.
  destruct (Z.eqb_spec (to_int (le_alloc_chrdev_region le)) 0) as [H1|H1];
    cbn [negb]; [|load_cases].
  destruct (Z.eqb_spec (to_int (le_cdev_add le)) 0) as [H2|H2];
    cbn [negb]; [|load_cases].
  destruct (IS_ERR (le_class_create le)) eqn:H3.
  { pose proof (PTR_ERR_nonzero _ H3). load_cases. }
  destruct (IS_ERR (le_device_create le)) eqn:H4; load_cases.
Qed.

Lemma module_load_all_or_nothing_witness :
  IS_ERR (2 ^ 64 - 19) = true /\
  ringbuf_init_module (LoadEnv 0 0 4096 (2 ^ 64 - 19)) registered_none
  = (registered_none, - ENOMEM).
Proof.
  split; [reflexivity|].
  pose proof (module_load_all_or_nothing (LoadEnv 0 0 4096 (2 ^ 64 - 19)))
    as H.
  destruct (ringbuf_init_module (LoadEnv 0 0 4096 (2 ^ 64 - 19))
              registered_none) as [k ret].
  destruct H as (_ & _ & Hnone & Hret).
  assert (Hr : ret = - ENOMEM) by (apply Hret; reflexivity).
  rewrite Hr. f_equal. apply Hnone. rewrite Hr. discriminate.
Defined.

(** X15 (the control utility). Run against the driver, the utility exits
    with status 1 and leaves the buffer alone when [open] fails. When
    [open] succeeds it exits with status 0 in every case: if the driver's
    allocation succeeds the buffer is replaced by an empty one of capacity
    100, whatever it held, with its wait queue and mutex initialised, and
    the size is printed; if it fails the old buffer is gone, no buffer is
    left (the state [ringbuf_free] leaves: every data field 0, wait queue
    and mutex as they were), and only the error is printed. *)
Theorem set_size_tool (fd : Z) (e : env) (rb : ringbuf) :
  (to_int fd < 0 -> set_size_main fd e rb = Done (rb, [PerrorOpen], Some 1)) /\
  (0 <= to_int fd ->
   set_size_main fd e rb
   = match env_alloc e with
     | Some junk =>
         Done (Ringbuf (Some (map junk (seq 0 100))) 100 0 0 0 true true,
               [QueueSizeSet 100], Some 0)
     | None =>
         Done (Ringbuf None 0 0 0 0 (rb_rq rb) (rb_lock rb),
               [PerrorIoctl], Some 0)
     end).
Proof.
  unfold set_size_main. split; intros Hfd.
  - now destruct (Z.ltb_spec (to_int fd) 0); [|lia].
  - destruct (Z.ltb_spec (to_int fd) 0); [lia|].
    rewrite ioctl_set_size. unfold set_size_case. cbn [arg_int arg_set_size].
    change (to_int 100 <=? 0) with false. cbv iota.
    change (to_int 100) with 100.
    rewrite resize_init by (unfold INT_MAX; lia).
    unfold kmalloc. destruct (env_alloc e); [done|].
    now rewrite ringbuf_free_eq.
Qed.

Lemma set_size_tool_witness :
  0 <= to_int 3 /\
  set_size_main 3 (Env None [])
    (Ringbuf (Some ["a"; "b"; "c"; x00]%byte) 4 0 3 3 true true)
  = Done (Ringbuf None 0 0 0 0 true true, [PerrorIoctl], Some 0).
Proof.
  assert (Hfd : 0 <= to_int 3) by discriminate.
  split; [exact Hfd|].
  apply (proj2 (set_size_tool 3 (Env None [])
                  (Ringbuf (Some ["a"; "b"; "c"; x00]%byte) 4 0 3 3 true true)) Hfd).
Defined.
